(** * A model of the blog manager of [script.js]

    The script has three classes.  [Blog] is one post, [BlogManager] owns
    the array of posts and mirrors it into [localStorage], and [BlogUI]
    wires the page to the manager.  This development embeds the three
    and proves the properties of the collection (ordering, persistence,
    tag queries, the effect of each mutating call) and of the page that
    shows it.

    What the browser provides (the system clock, the text form of a
    [Date], [JSON.stringify] and [JSON.parse]) is an interface here, the
    class [Platform]; the methods of the script are written once, over
    any platform. *)

From stdpp Require Import base decidable option list sorting strings gmap.
From Stdlib Require Import ZArith Lia Ascii.

Local Open Scope Z_scope.
Set Warnings "-register-all,-clear-no-such-hyp".

(** ** Values *)

(** The trees [JSON.parse] produces and [JSON.stringify] prints.  A number
    is an integer here: the only numbers the script stores are ids, which
    come from [Date.now()]. *)
Inductive JSON : Type :=
  | JNull
  | JBool (b : bool)
  | JNum (n : Z)
  | JStr (s : string)
  | JArr (items : list JSON)
  | JObj (props : list (string * JSON)).

(** Reading a property of a parsed object; [None] is [undefined].  Where
    a text names a key more than once the object has the last value. *)
Fixpoint JSON_get (key : string) (props : list (string * JSON)) : option JSON :=
  match props with
  | [] => None
  | (k, v) :: rest =>
      match JSON_get key rest with
      | Some v' => Some v'
      | None => if decide (k = key) then Some v else None
      end
  end.

(** A [Blog] object.  A [Date] is its time value, the milliseconds since
    the epoch; a string is held as its UTF-8 text (see [Unicode]). *)
Record Blog : Type := mkBlog {
  id : Z;
  title : string;
  content : string;
  tags : list string;
  createdDate : Z;
  updatedDate : Z
}.

(** ** Strings *)

(** A string of the script is a sequence of UTF-16 code units.  It is
    held here as a [string] of bytes, its UTF-8 text, which is how the
    texts of the page stand in this file.  [front] reads the character at
    the front of a text: one to four bytes, as UTF-8 has them (no
    overlong forms, no surrogates, nothing above [0x10FFFF]).  A byte
    that is not part of such a character is read by itself as the code
    unit [0xDC00 + byte], which is no character and no white space, so
    that every sequence of bytes has code units, and no two the same. *)
Module Unicode.

(** The bytes are numbers. *)
Definition byte (a : ascii) : Z := Z.of_N (N_of_ascii a).

(** The bytes after the first of a character. *)
Definition continues (b : Z) : Prop := 0x80 ≤ b ≤ 0xBF.

(** Characters of two, three and four bytes. *)
Definition two (a b : Z) : Prop := 0xC2 ≤ a ≤ 0xDF ∧ continues b.

Definition three (a b c : Z) : Prop :=
  ((a = 0xE0 ∧ 0xA0 ≤ b ≤ 0xBF) ∨
   ((0xE1 ≤ a ≤ 0xEC ∨ 0xEE ≤ a ≤ 0xEF) ∧ continues b) ∨
   (a = 0xED ∧ 0x80 ≤ b ≤ 0x9F)) ∧ continues c.

Definition four (a b c d : Z) : Prop :=
  ((a = 0xF0 ∧ 0x90 ≤ b ≤ 0xBF) ∨
   (0xF1 ≤ a ≤ 0xF3 ∧ continues b) ∨
   (a = 0xF4 ∧ 0x80 ≤ b ≤ 0x8F)) ∧ continues c ∧ continues d.

Global Instance continues_dec b : Decision (continues b).
Proof. unfold continues. apply _. Defined.
Global Instance two_dec a b : Decision (two a b).
Proof. unfold two. apply _. Defined.
Global Instance three_dec a b c : Decision (three a b c).
Proof. unfold three. apply _. Defined.
Global Instance four_dec a b c d : Decision (four a b c d).
Proof. unfold four. apply _. Defined.

Definition lone (a : Z) : Z := if decide (a < 0x80) then a else 0xDC00 + a.

(** The character at the front and the text after it. *)
Definition front (s : string) : option (Z * string) :=
  match s with
  | EmptyString => None
  | String a r1 =>
      Some
        match r1 with
        | String b r2 =>
            if decide (two (byte a) (byte b))
            then ((byte a - 0xC0) * 0x40 + (byte b - 0x80), r2)
            else
              match r2 with
              | String c r3 =>
                  if decide (three (byte a) (byte b) (byte c))
                  then ((byte a - 0xE0) * 0x1000 + (byte b - 0x80) * 0x40
                        + (byte c - 0x80), r3)
                  else
                    match r3 with
                    | String d r4 =>
                        if decide (four (byte a) (byte b) (byte c) (byte d))
                        then ((byte a - 0xF0) * 0x40000 + (byte b - 0x80) * 0x1000
                              + (byte c - 0x80) * 0x40 + (byte d - 0x80), r4)
                        else (lone (byte a), r1)
                    | EmptyString => (lone (byte a), r1)
                    end
              | EmptyString => (lone (byte a), r1)
              end
        | EmptyString => (lone (byte a), r1)
        end
  end.

(** The characters of a text, as code points.  A text has no more
    characters than bytes. *)
Fixpoint points_upto (n : nat) (s : string) : list Z :=
  match n with
  | O => []
  | S n' =>
      match front s with
      | Some (p, r) => p :: points_upto n' r
      | None => []
      end
  end.

Definition code_points (s : string) : list Z := points_upto (String.length s) s.

(** The code units of a character: one, or a surrogate pair. *)
Definition utf16 (p : Z) : list Z :=
  if decide (p < 0x10000) then [p]
  else [0xD800 + (p - 0x10000) / 0x400; 0xDC00 + (p - 0x10000) mod 0x400].

Definition code_units (s : string) : list Z := code_points s ≫= utf16.

(** The order of strings by their code units, the first difference
    deciding, a string before its extensions. *)
Fixpoint units_compare (x y : list Z) : comparison :=
  match x, y with
  | [], [] => Eq
  | [], _ :: _ => Lt
  | _ :: _, [] => Gt
  | a :: x', b :: y' =>
      match a ?= b with
      | Eq => units_compare x' y'
      | c => c
      end
  end.

Definition units_le (x y : string) : Prop :=
  units_compare (code_units x) (code_units y) ≠ Gt.

Definition units_lt (x y : string) : Prop :=
  units_compare (code_units x) (code_units y) = Lt.

(** What [front] reads: a character that is no surrogate, or the code
    unit of a stray byte. *)
Definition scalar (p : Z) : Prop :=
  0 ≤ p < 0xD800 ∨ 0xDC80 ≤ p ≤ 0xDCFF ∨ 0xE000 ≤ p < 0x110000.

End Unicode.

(** ** The browser *)

Class Platform : Type := {
  (** [clock n] is what the [n]-th reading of the system clock returns,
      counted from the load of the page. *)
  clock : nat → Z;
  (** [Date.prototype.toJSON], which for a valid date is [toISOString]. *)
  Date_toJSON : Z → string;
  (** [new Date(text)]; [None] is the invalid date. *)
  Date_parse : string → option Z;
  JSON_stringify : JSON → string;
  (** [None] when [JSON.parse] throws. *)
  JSON_parse : string → option JSON
}.

(** The state the script runs in: the array held by the one manager of the
    page, the storage area of the page, and how many times the clock has
    been read. *)
Record World : Type := mkWorld {
  blogs : list Blog;
  localStorage : gmap string string;
  ticks : nat
}.

Definition set_blogs (l : list Blog) (w : World) : World :=
  mkWorld l (localStorage w) (ticks w).
Definition set_localStorage (s : gmap string string) (w : World) : World :=
  mkWorld (blogs w) s (ticks w).
Definition set_ticks (n : nat) (w : World) : World :=
  mkWorld (blogs w) (localStorage w) n.

(** What stops a method.  [SyntaxError] and [TypeError] are the exceptions
    of JavaScript.  [IllTyped] is not an exception: it marks a stored
    record whose fields are not those of a [Blog] (a missing title, an
    invalid date), with which the script would go on, holding values this
    model has no type for. *)
Inductive exn : Type := SyntaxError | TypeError | IllTyped.

Inductive result (A : Type) : Type :=
  | Ok (a : A)
  | Throw (e : exn).
Global Arguments Ok {A} a.
Global Arguments Throw {A} e.

(** Methods are state transformers that may stop. *)
Definition M (A : Type) : Type := World → result (A * World).

Global Instance M_ret : MRet M := λ A a w, Ok (a, w).
Global Instance M_bind : MBind M := λ A B f m w,
  match m w with
  | Ok (a, w') => f a w'
  | Throw e => Throw e
  end.

Definition throw {A} (e : exn) : M A := λ _, Throw e.
Definition get_blogs : M (list Blog) := λ w, Ok (blogs w, w).
Definition put_blogs (l : list Blog) : M unit := λ w, Ok ((), set_blogs l w).

Fixpoint mapM {A B} (f : A → M B) (l : list A) : M (list B) :=
  match l with
  | [] => mret []
  | x :: l' => y ← f x; ys ← mapM f l'; mret (y :: ys)
  end.

(** ** [Array.prototype.sort] *)

(** The sort of an array is stable, and with a consistent comparator its
    result is determined: the one stable arrangement in which no element
    compares greater than a later one.  Insertion from the right computes
    it.  [cmp x y > 0] puts [x] after [y]. *)
Fixpoint sort_insert {A} (cmp : A → A → Z) (x : A) (l : list A) : list A :=
  match l with
  | [] => [x]
  | y :: l' => if decide (0 < cmp x y) then y :: sort_insert cmp x l' else x :: l
  end.

Definition Array_sort {A} (cmp : A → A → Z) (l : list A) : list A :=
  foldr (sort_insert cmp) [] l.

(** The comparator of a [sort()] without argument, on strings: the order
    of the UTF-16 code units. *)
Definition default_compare (x y : string) : Z :=
  match Unicode.units_compare (Unicode.code_units x) (Unicode.code_units y) with
  | Lt => -1
  | Eq => 0
  | Gt => 1
  end.

(** ** [Set] *)

(** A [Set] keeps its elements in the order of insertion, once each. *)
Definition Set_add (x : string) (s : list string) : list string :=
  if decide (x ∈ s) then s else s ++ [x].

Section script.
Context `{P : Platform}.

(** ** Clock *)

(** One reading of the clock: [Date.now()], and also [new Date()]. *)
Definition Date_now : M Z :=
  λ w, Ok (clock (ticks w), set_ticks (S (ticks w)) w).

(** ** class Blog *)

Definition Blog_new (i : Z) (t c : string) (tg : list string) : M Blog :=
  created ← Date_now;
  updated ← Date_now;
  mret (mkBlog i t c tg created updated).

Definition Blog_update (b : Blog) (t c : string) (tg : list string) : M Blog :=
  updated ← Date_now;
  mret (mkBlog (id b) t c tg (createdDate b) updated).

(** ** class BlogManager *)

(** What [JSON.stringify] makes of one [Blog]: its own properties in the
    order the constructor assigns them, each date through [toJSON]. *)
Definition Blog_toJSON (b : Blog) : JSON :=
  JObj [ ("id", JNum (id b));
         ("title", JStr (title b));
         ("content", JStr (content b));
         ("tags", JArr (JStr <$> tags b));
         ("createdDate", JStr (Date_toJSON (createdDate b)));
         ("updatedDate", JStr (Date_toJSON (updatedDate b))) ]%string.

Definition saveToLocalStorage : M unit :=
  λ w, Ok ((), set_localStorage
                 (<["blogs"%string := JSON_stringify (JArr (Blog_toJSON <$> blogs w))]>
                    (localStorage w)) w).

Definition sortBlogs : M unit :=
  l ← get_blogs;
  put_blogs (Array_sort (λ a b, updatedDate b - updatedDate a) l).

(** [find] returns the object in the first slot that passes the test;
    the slot is kept with it, since [updateBlog] writes through what
    [getBlog] returned. *)
Definition findBlog (i : Z) (l : list Blog) : option (nat * Blog) :=
  list_find (λ b, id b = i) l.

Definition getBlog (i : Z) : M (option Blog) :=
  l ← get_blogs;
  mret (snd <$> findBlog i l).

Definition addBlog (t c : string) (tg : list string) : M Blog :=
  i ← Date_now;
  blog ← Blog_new i t c tg;
  l ← get_blogs;
  put_blogs (l ++ [blog]);;
  sortBlogs;;
  saveToLocalStorage;;
  mret blog.

(** [blog] is what [this.getBlog(id)] returns, an object of the array;
    [blog.update] changes that object where it sits. *)
Definition updateBlog (i : Z) (t c : string) (tg : list string) : M (option Blog) :=
  l ← get_blogs;
  match findBlog i l with
  | Some (slot, blog) =>
      blog' ← Blog_update blog t c tg;
      put_blogs (<[slot := blog']> l);;
      sortBlogs;;
      saveToLocalStorage;;
      mret (Some blog')
  | None => mret None
  end.

Definition deleteBlog (i : Z) : M unit :=
  l ← get_blogs;
  put_blogs (filter (λ b, id b ≠ i) l);;
  saveToLocalStorage.

Definition getAllTags : M (list string) :=
  l ← get_blogs;
  let tagsSet := foldl (λ s b, foldl (λ s tag, Set_add tag s) s (tags b)) [] l in
  mret (Array_sort default_compare tagsSet).

(** [tag] is [None] when the argument is [undefined]. *)
Definition filterByTag (tag : option string) : M (list Blog) :=
  l ← get_blogs;
  match tag with
  | None => mret l
  | Some x => if decide (x = ""%string) then mret l
              else mret (filter (λ b, x ∈ tags b) l)
  end.

(** *** Reading the store back *)

Definition getItem (key : string) : M (option string) :=
  λ w, Ok (localStorage w !! key, w).

(** The fields of a stored record, at the types of a [Blog]. *)
Definition as_number (v : option JSON) : M Z :=
  match v with
  | Some (JNum n) => mret n
  | _ => throw IllTyped
  end.

Definition as_string (v : option JSON) : M string :=
  match v with
  | Some (JStr s) => mret s
  | _ => throw IllTyped
  end.

(** An absent [tags] takes the default of the constructor, [[]]. *)
Definition as_tags (v : option JSON) : M (list string) :=
  match v with
  | None => mret []
  | Some (JArr items) => mapM (λ x, as_string (Some x)) items
  | _ => throw IllTyped
  end.

(** [new Date(v)] for a stored value: a text is parsed, a number is the
    time value if it is in the range of dates, [null] and the booleans are
    taken as the numbers 0 and 1.  An absent value gives the invalid date,
    for which a [Blog] has no value here, and so does, in this model, an
    array or an object. *)
Definition Date_of (v : option JSON) : M Z :=
  match v with
  | Some (JStr s) =>
      match Date_parse s with
      | Some t => mret t
      | None => throw IllTyped
      end
  | Some (JNum n) =>
      if decide (Z.abs n ≤ 8640000000000000) then mret n else throw IllTyped
  | Some JNull => mret 0
  | Some (JBool b) => mret (if b then 1 else 0)
  | _ => throw IllTyped
  end.

(** The function mapped over the parsed array. *)
Definition Blog_fromJSON (blog : JSON) : M Blog :=
  match blog with
  | JObj props =>
      i ← as_number (JSON_get "id" props);
      t ← as_string (JSON_get "title" props);
      c ← as_string (JSON_get "content" props);
      tg ← as_tags (JSON_get "tags" props);
      newBlog ← Blog_new i t c tg;
      created ← Date_of (JSON_get "createdDate" props);
      updated ← Date_of (JSON_get "updatedDate" props);
      mret (mkBlog (id newBlog) (title newBlog) (content newBlog) (tags newBlog)
                   created updated)
  | JNull => throw TypeError
  | _ => throw IllTyped
  end.

Definition loadFromLocalStorage : M unit :=
  storedBlogs ← getItem "blogs";
  match storedBlogs with
  | Some text =>
      if decide (text = ""%string) then mret ()
      else match JSON_parse text with
           | Some (JArr parsedBlogs) =>
               l ← mapM Blog_fromJSON parsedBlogs;
               put_blogs l
           | Some _ => throw TypeError
           | None => throw SyntaxError
           end
  | None => mret ()
  end.

Definition BlogManager_new : M unit :=
  put_blogs [];;
  loadFromLocalStorage.

(** ** Sequences of calls *)

Inductive call : Type :=
  | Add (t c : string) (tg : list string)
  | Update (i : Z) (t c : string) (tg : list string)
  | Delete (i : Z).

Definition perform (k : call) : M unit :=
  match k with
  | Add t c tg => addBlog t c tg;; mret ()
  | Update i t c tg => updateBlog i t c tg;; mret ()
  | Delete i => deleteBlog i
  end.

(** One [addBlog] after another; the entries created, in order. *)
Definition addBlogs (posts : list (string * string * list string)) : M (list Blog) :=
  mapM (λ p, addBlog p.1.1 p.1.2 p.2) posts.

(** The worlds after each call of a sequence, in order. *)
Fixpoint trace (ks : list call) (w : World) : result (list World) :=
  match ks with
  | [] => Ok []
  | k :: ks' =>
      match perform k w with
      | Ok (_, w') =>
          match trace ks' w' with
          | Ok ws => Ok (w' :: ws)
          | Throw e => Throw e
          end
      | Throw e => Throw e
      end
  end.

End script.

(** ** A browser

    One platform, for running the script on data: dates print as
    [toISOString] prints them and are read back from that form, and the
    text of a tree is the compact one [JSON.stringify] writes.  [parse]
    reads any JSON text whose numbers are integers and whose escapes stay
    within one byte. *)
Module Browser.

Definition quote : ascii := "034"%char.
Definition backslash : ascii := "\"%char.

Definition digit (n : Z) : ascii := ascii_of_N (Z.to_N (48 + n mod 10)).

Definition digit_value (c : ascii) : option Z :=
  let n := Z.of_N (N_of_ascii c) in
  if decide (48 ≤ n ≤ 57) then Some (n - 48) else None.

(** [n] in [width] decimal digits, in front of [acc]. *)
Fixpoint pad_dec (width : nat) (n : Z) (acc : string) : string :=
  match width with
  | O => acc
  | S k => pad_dec k (n / 10) (String (digit n) acc)
  end.

Fixpoint read_dec (width : nat) (acc : Z) (s : string) : option (Z * string) :=
  match width with
  | O => Some (acc, s)
  | S k =>
      match s with
      | String c r => d ← digit_value c; read_dec k (10 * acc + d) r
      | EmptyString => None
      end
  end.

Definition expect (c : ascii) (s : string) : option string :=
  match s with
  | String c' r => if decide (c' = c) then Some r else None
  | EmptyString => None
  end.

(** *** Dates *)

(** Day number (days since the epoch) to year, month and day of the
    Gregorian calendar, and back.  Years are counted from March inside,
    so that the leap day is the last of its year. *)
Definition civil_from_days (n : Z) : Z * Z * Z :=
  let z := n + 719468 in
  let era := z / 146097 in
  let doe := z - era * 146097 in
  let yoe := (doe - doe / 1460 + doe / 36524 - doe / 146096) / 365 in
  let doy := doe - (365 * yoe + yoe / 4 - yoe / 100) in
  let mp := (5 * doy + 2) / 153 in
  let d := doy - (153 * mp + 2) / 5 + 1 in
  let m := if decide (mp < 10) then mp + 3 else mp - 9 in
  let y := yoe + era * 400 in
  (if decide (m ≤ 2) then y + 1 else y, m, d).

Definition days_from_civil (y m d : Z) : Z :=
  let y' := if decide (m ≤ 2) then y - 1 else y in
  let era := y' / 400 in
  let yoe := y' - era * 400 in
  let mp := if decide (2 < m) then m - 3 else m + 9 in
  let doy := (153 * mp + 2) / 5 + d - 1 in
  let doe := yoe * 365 + yoe / 4 - yoe / 100 + doy in
  era * 146097 + doe - 719468.

Definition msPerDay : Z := 86400000.

Definition pad (width : nat) (n : Z) : string := pad_dec width n EmptyString.

(** Four digits for the years 0 to 9999, a sign and six digits outside. *)
Definition year_text (y : Z) : string :=
  if decide (0 ≤ y ≤ 9999) then pad 4 y
  else String (if decide (y < 0) then "-" else "+")%char (pad 6 (Z.abs y)).

Definition toISOString (t : Z) : string :=
  let '(y, m, d) := civil_from_days (t / msPerDay) in
  let r := t mod msPerDay in
  year_text y +:+ "-" +:+ pad 2 m +:+ "-" +:+ pad 2 d
    +:+ "T" +:+ pad 2 (r / 3600000)
    +:+ ":" +:+ pad 2 (r / 60000 mod 60)
    +:+ ":" +:+ pad 2 (r / 1000 mod 60)
    +:+ "." +:+ pad 3 (r mod 1000) +:+ "Z".

Definition read_year (s : string) : option (Z * string) :=
  match s with
  | String "+" r => read_dec 6 0 r
  | String "-" r => '(y, r') ← read_dec 6 0 r; Some (- y, r')
  | _ => read_dec 4 0 s
  end.

(** Reads the form [toISOString] writes, and no other. *)
Definition fromISOString (s : string) : option Z :=
  '(y, s) ← read_year s;
  s ← expect "-" s;
  '(m, s) ← read_dec 2 0 s;
  s ← expect "-" s;
  '(d, s) ← read_dec 2 0 s;
  s ← expect "T" s;
  '(h, s) ← read_dec 2 0 s;
  s ← expect ":" s;
  '(mi, s) ← read_dec 2 0 s;
  s ← expect ":" s;
  '(sec, s) ← read_dec 2 0 s;
  s ← expect "." s;
  '(ms, s) ← read_dec 3 0 s;
  s ← expect "Z" s;
  let n := days_from_civil y m d in
  if decide (s = EmptyString ∧ civil_from_days n = (y, m, d)
             ∧ h < 24 ∧ mi < 60 ∧ sec < 60)
  then Some (n * msPerDay + h * 3600000 + mi * 60000 + sec * 1000 + ms)
  else None.

(** *** JSON text *)

Fixpoint dec_digits (fuel : nat) (n : Z) (acc : string) : string :=
  match fuel with
  | O => acc
  | S k =>
      let acc' := String (digit n) acc in
      if decide (n < 10) then acc' else dec_digits k (n / 10) acc'
  end.

Definition Z_to_dec (n : Z) : string :=
  if decide (n < 0)
  then String "-" (dec_digits (S (Z.to_nat (Z.log2 (- n)))) (- n) "")
  else dec_digits (S (Z.to_nat (Z.log2 n))) n "".

Definition hex_digit (n : Z) : ascii :=
  ascii_of_N (Z.to_N (if decide (n < 10) then 48 + n else 87 + n)).

Definition hex_value (c : ascii) : option Z :=
  let n := Z.of_N (N_of_ascii c) in
  if decide (48 ≤ n ≤ 57) then Some (n - 48)
  else if decide (97 ≤ n ≤ 102) then Some (n - 87)
  else if decide (65 ≤ n ≤ 70) then Some (n - 55)
  else None.

Definition escape (c : ascii) (rest : string) : string :=
  let n := Z.of_N (N_of_ascii c) in
  if decide (c = quote) then String backslash (String quote rest)
  else if decide (c = backslash) then String backslash (String backslash rest)
  else if decide (n = 8) then String backslash (String "b" rest)
  else if decide (n = 9) then String backslash (String "t" rest)
  else if decide (n = 10) then String backslash (String "n" rest)
  else if decide (n = 12) then String backslash (String "f" rest)
  else if decide (n = 13) then String backslash (String "r" rest)
  else if decide (n < 32)
       then String backslash (String "u" (String "0" (String "0"
              (String (hex_digit (n / 16)) (String (hex_digit (n mod 16)) rest)))))
  else String c rest.

Fixpoint quote_to (s : string) (rest : string) : string :=
  match s with
  | EmptyString => rest
  | String c r => escape c (quote_to r rest)
  end.

Definition quoted (s : string) : string :=
  String quote (quote_to s (String quote EmptyString)).

Fixpoint stringify (v : JSON) : string :=
  match v with
  | JNull => "null"
  | JBool true => "true"
  | JBool false => "false"
  | JNum n => Z_to_dec n
  | JStr s => quoted s
  | JArr items => "[" +:+ String.concat "," (map stringify items) +:+ "]"
  | JObj props =>
      "{" +:+ String.concat ","
                (map (λ kv, quoted (fst kv) +:+ ":" +:+ stringify (snd kv)) props)
          +:+ "}"
  end.

Fixpoint skip_ws (s : string) : string :=
  match s with
  | String c r => if Ascii.is_space c then skip_ws r else s
  | EmptyString => s
  end.

Fixpoint expect_text (word : string) (s : string) : option string :=
  match word with
  | EmptyString => Some s
  | String c word' => r ← expect c s; expect_text word' r
  end.

(** The characters of a string literal, after its opening quote. *)
Fixpoint read_chars (s : string) : option (string * string) :=
  match s with
  | EmptyString => None
  | String c r =>
      if decide (c = quote) then Some (EmptyString, r)
      else if decide (c = backslash) then
        match r with
        | String e r' =>
            let cons_to (x : ascii) (tl : string) :=
              '(str, rest) ← read_chars tl; Some (String x str, rest) in
            match e with
            | "b"%char => cons_to "008"%char r'
            | "t"%char => cons_to "009"%char r'
            | "n"%char => cons_to "010"%char r'
            | "f"%char => cons_to "012"%char r'
            | "r"%char => cons_to "013"%char r'
            | "/"%char => cons_to "/"%char r'
            | "u"%char =>
                match r' with
                | String h1 (String h2 (String h3 (String h4 r''))) =>
                    a ← hex_value h1; b ← hex_value h2;
                    c' ← hex_value h3; d ← hex_value h4;
                    if decide (a = 0 ∧ b = 0)
                    then cons_to (ascii_of_N (Z.to_N (16 * c' + d))) r''
                    else None
                | _ => None
                end
            | _ => if decide (e = quote ∨ e = backslash) then cons_to e r' else None
            end
        | EmptyString => None
        end
      else if decide (Z.of_N (N_of_ascii c) < 32) then None
      else '(str, rest) ← read_chars r; Some (String c str, rest)
  end.

Fixpoint read_digits (s : string) (acc : Z) : Z * string :=
  match s with
  | String c r =>
      match digit_value c with
      | Some d => read_digits r (10 * acc + d)
      | None => (acc, s)
      end
  | EmptyString => (acc, s)
  end.

Definition read_number (s : string) : option (Z * string) :=
  match s with
  | String c r =>
      d ← digit_value c;
      let '(n, rest) := read_digits r d in
      match rest with
      | String "." _ | String "e" _ | String "E" _ => None
      | _ => if decide (d = 0 ∧ r ≠ rest) then None else Some (n, rest)
      end
  | EmptyString => None
  end.

(** The elements of an array after the first bracket, the members of an
    object after the first brace; [value] reads one value. *)
Fixpoint read_items (value : string → option (JSON * string))
    (fuel : nat) (s : string) : option (list JSON * string) :=
  match fuel with
  | O => None
  | S k =>
      '(v, r) ← value s;
      match skip_ws r with
      | String "," r' => '(vs, r'') ← read_items value k r'; Some (v :: vs, r'')
      | String "]" r' => Some ([v], r')
      | _ => None
      end
  end.

Fixpoint read_props (value : string → option (JSON * string))
    (fuel : nat) (s : string) : option (list (string * JSON) * string) :=
  match fuel with
  | O => None
  | S k =>
      r ← expect quote (skip_ws s);
      '(key, r) ← read_chars r;
      r ← expect ":" (skip_ws r);
      '(v, r) ← value r;
      match skip_ws r with
      | String "," r' => '(kvs, r'') ← read_props value k r'; Some ((key, v) :: kvs, r'')
      | String "}" r' => Some ([(key, v)], r')
      | _ => None
      end
  end.

Fixpoint read_value (fuel : nat) (s : string) : option (JSON * string) :=
  match fuel with
  | O => None
  | S k =>
      match skip_ws s with
      | String "n" r => r ← expect_text "ull" r; Some (JNull, r)
      | String "t" r => r ← expect_text "rue" r; Some (JBool true, r)
      | String "f" r => r ← expect_text "alse" r; Some (JBool false, r)
      | String "[" r =>
          match skip_ws r with
          | String "]" r' => Some (JArr [], r')
          | _ => '(vs, r') ← read_items (read_value k) k r; Some (JArr vs, r')
          end
      | String "{" r =>
          match skip_ws r with
          | String "}" r' => Some (JObj [], r')
          | _ => '(kvs, r') ← read_props (read_value k) k r; Some (JObj kvs, r')
          end
      | String "-" r => '(n, r') ← read_number r; Some (JNum (- n), r')
      | String c r =>
          if decide (c = quote) then '(str, r') ← read_chars r; Some (JStr str, r')
          else '(n, r') ← read_number (String c r); Some (JNum n, r')
      | EmptyString => None
      end
  end.

Definition parse (s : string) : option JSON :=
  '(v, r) ← read_value (S (String.length s)) s;
  if decide (skip_ws r = EmptyString) then Some v else None.

(** A clock that advances by [pace] milliseconds from one reading to the
    next; it stands still when [pace] is 0. *)
Definition paced_clock (start pace : Z) (n : nat) : Z := start + pace * Z.of_nat n.

Definition platform (clk : nat → Z) : Platform :=
  {| clock := clk;
     Date_toJSON := toISOString;
     Date_parse := fromISOString;
     JSON_stringify := stringify;
     JSON_parse := parse |}.

End Browser.

(** ** Predicates of the statements *)

(** A date that the platform reads back from its own text. *)
Definition date_round_trips `{P : Platform} (t : Z) : Prop :=
  Date_parse (Date_toJSON t) = Some t.

(** A clock that is never set back: no reading is earlier than the one
    before it. *)
Definition clock_never_back `{P : Platform} : Prop :=
  ∀ n, clock n ≤ clock (S n).

(** Created no later than last updated. *)
Definition dates_in_order (b : Blog) : Prop := createdDate b ≤ updatedDate b.

(** Entries with their dates in order, none of them created after the
    next reading of the clock. *)
Definition dated `{P : Platform} (w : World) : Prop :=
  Forall (λ b, dates_in_order b ∧ createdDate b ≤ clock (ticks w)) (blogs w).

(** Newest first. *)
Definition newer_first (a b : Blog) : Prop := updatedDate b ≤ updatedDate a.

Definition sorted_newest_first (l : list Blog) : Prop :=
  StronglySorted newer_first l.

(** ** Sample data *)

Module Sample.

(** A browser whose clock moves one millisecond with each reading, and
    one whose clock stands still. *)
Definition ticking : Platform :=
  Browser.platform (Browser.paced_clock 1700000000000 1).
Definition standing : Platform :=
  Browser.platform (Browser.paced_clock 1700000000000 0).

(** A browser whose clock, five milliseconds fast for its first two
    readings, has been set right before the third. *)
Definition set_back : Platform :=
  Browser.platform (λ n, if decide (n < 2)%nat then 1700000000005 else 1700000000000).

Definition older : Blog :=
  mkBlog 1699999990000 "A" "body1" ["x"] 1699999990000 1699999995000.

(** A title with a quotation mark and a backslash, a content of two
    lines, a tag that is already on [older]. *)
Definition newer : Blog :=
  mkBlog 1699999992000
         ("B " +:+ String Browser.quote "q\r" +:+ String Browser.quote EmptyString)
         ("line 1" +:+ String "010" "line 2")
         ["x"; "y"] 1699999992000 1699999998123.

Definition fresh : World := mkWorld [] ∅ 0.
Definition page : World := mkWorld [newer; older] ∅ 0.

Definition calls : list call :=
  [ Add "C" "body3" ["z"; "y"];
    Update 1699999990000 "A2" "body2" [];
    Update 42 "none" "none" [];
    Delete 1699999992000;
    Delete 42 ].

Definition posts : list (string * string * list string) :=
  [ ("A", "body1", ["x"]); ("B", "body2", ["x"; "y"]) ]%string.

End Sample.

(** ** Strings and numbers of the language

    The methods of strings that [BlogUI] calls, and the two conversions
    between numbers and strings that happen around the hidden field. *)
Module JS.

(** White space and line ends, the characters that [trim] and
    [parseInt] skip: TAB, LF, VT, FF, CR, the space, the no-break space,
    the spaces of Unicode (category Zs), the line and paragraph
    separators, and the byte order mark. *)
Definition is_white (p : Z) : bool :=
  bool_decide (9 ≤ p ≤ 13 ∨ p = 0x20 ∨ p = 0xA0 ∨ p = 0x1680 ∨
               0x2000 ≤ p ≤ 0x200A ∨ p = 0x2028 ∨ p = 0x2029 ∨ p = 0x202F ∨
               p = 0x205F ∨ p = 0x3000 ∨ p = 0xFEFF).

(** A text of white space only; the empty text is one. *)
Definition blank (s : string) : Prop :=
  Forall (λ p, is_white p) (Unicode.code_points s).

Global Instance blank_dec s : Decision (blank s).
Proof. unfold blank. apply _. Defined.

(** [trimStart] drops the white space at the front, character by
    character. *)
Fixpoint trimStart_upto (n : nat) (s : string) : string :=
  match n with
  | O => s
  | S n' =>
      match Unicode.front s with
      | Some (p, r) => if is_white p then trimStart_upto n' r else s
      | None => s
      end
  end.

Definition trimStart (s : string) : string := trimStart_upto (String.length s) s.

(** [trimEnd] drops the white space at the end: the longest end of the
    text that holds white space only. *)
Fixpoint trimEnd (s : string) : string :=
  match s with
  | String c r => if decide (blank s) then EmptyString else String c (trimEnd r)
  | EmptyString => EmptyString
  end.

Definition trim (s : string) : string := trimEnd (trimStart s).

(** [s.split(sep)] for a separator of one character: the pieces between
    the separators, one piece more than there are separators. *)
Fixpoint split (sep : ascii) (s : string) : list string :=
  match s with
  | String c r =>
      if decide (c = sep) then EmptyString :: split sep r
      else match split sep r with
           | piece :: pieces => String c piece :: pieces
           | [] => [String c EmptyString]
           end
  | EmptyString => [EmptyString]
  end.

Definition join (sep : string) (l : list string) : string := String.concat sep l.

(** [s.replace(/\n/g, "<br>")]. *)
Fixpoint br_for_newlines (s : string) : string :=
  match s with
  | String c r =>
      if decide (c = "010"%char) then "<br>" +:+ br_for_newlines r
      else String c (br_for_newlines r)
  | EmptyString => EmptyString
  end.

(** A number as a string, for the integers: their decimal form.  (It is
    the form of the language for the integers below [10^21], which covers
    every integer that a number holds exactly.) *)
Definition Number_toString (n : Z) : string := Browser.Z_to_dec n.

Definition digit_in (radix : Z) (c : ascii) : option Z :=
  d ← Browser.hex_value c; if decide (d < radix) then Some d else None.

(** The value of the longest run of digits at the front of [s]. *)
Fixpoint digits_value (radix : Z) (acc : Z) (s : string) : Z :=
  match s with
  | String c r =>
      match digit_in radix c with
      | Some d => digits_value radix (radix * acc + d) r
      | None => acc
      end
  | EmptyString => acc
  end.

(** [parseInt(s)], without a radix: white space in front is skipped, a
    sign is read, [0x] announces hexadecimal digits, and the digits are
    read as far as they go.  [None] is [NaN]. *)
Definition parseInt (s : string) : option Z :=
  let s := trimStart s in
  let '(sign, s) :=
    match s with
    | String c r =>
        if decide (c = "-"%char) then (-1, r)
        else if decide (c = "+"%char) then (1, r) else (1, s)
    | EmptyString => (1, s)
    end in
  let '(radix, s) :=
    match s with
    | String c1 (String c2 r) =>
        if decide (c1 = "0"%char ∧ (c2 = "x"%char ∨ c2 = "X"%char))
        then (16, r) else (10, s)
    | _ => (10, s)
    end in
  match s with
  | String c _ =>
      match digit_in radix c with
      | Some _ => Some (sign * digits_value radix 0 s)
      | None => None
      end
  | EmptyString => None
  end.

(** The bytes of a text.  A byte below [0x80], such as the comma, is a
    character of the text wherever it stands in it. *)
Definition chars (s : string) : list ascii := String.list_ascii_of_string s.

End JS.

(** ** The page *)

(** What the script reads and writes of the elements it looks up: the
    values of the four inputs, the text of the heading of the form,
    whether the cancel button carries the class [hidden], the options of
    the tag filter (value and text) with the value selected, the markup
    last assigned to the list, and where the window is scrolled to. *)
Record Page : Type := mkPage {
  titleInput : string;
  contentInput : string;
  tagsInput : string;
  editIdInput : string;
  formTitle : string;
  cancelHidden : bool;
  filterOptions : list (string * string);
  filterValue : string;
  blogList : string;
  scroll : Z * Z
}.

Inductive control : Type := TitleInput | ContentInput | TagsInput | EditIdInput.

(** What the markup of the page decides, and the locale of the browser. *)
Class Document : Type := {
  (** the value a control holds once [v] has been assigned to it (a
      one-line input drops line breaks, a text area keeps them) *)
  held : control → string → string;
  (** [form.reset()]: the controls of the form go back to their
      defaults *)
  form_reset : Page → Page;
  (** [toLocaleString("th-TH", ...)] with the options of
      [getFormattedDate] *)
  Date_toLocaleString : Z → string
}.

Definition set_input (c : control) (v : string) (pg : Page) : Page :=
  match c with
  | TitleInput =>
      mkPage v (contentInput pg) (tagsInput pg) (editIdInput pg) (formTitle pg)
             (cancelHidden pg) (filterOptions pg) (filterValue pg) (blogList pg) (scroll pg)
  | ContentInput =>
      mkPage (titleInput pg) v (tagsInput pg) (editIdInput pg) (formTitle pg)
             (cancelHidden pg) (filterOptions pg) (filterValue pg) (blogList pg) (scroll pg)
  | TagsInput =>
      mkPage (titleInput pg) (contentInput pg) v (editIdInput pg) (formTitle pg)
             (cancelHidden pg) (filterOptions pg) (filterValue pg) (blogList pg) (scroll pg)
  | EditIdInput =>
      mkPage (titleInput pg) (contentInput pg) (tagsInput pg) v (formTitle pg)
             (cancelHidden pg) (filterOptions pg) (filterValue pg) (blogList pg) (scroll pg)
  end.

Definition set_formTitle (v : string) (pg : Page) : Page :=
  mkPage (titleInput pg) (contentInput pg) (tagsInput pg) (editIdInput pg) v
         (cancelHidden pg) (filterOptions pg) (filterValue pg) (blogList pg) (scroll pg).

Definition set_cancelHidden (v : bool) (pg : Page) : Page :=
  mkPage (titleInput pg) (contentInput pg) (tagsInput pg) (editIdInput pg) (formTitle pg)
         v (filterOptions pg) (filterValue pg) (blogList pg) (scroll pg).

Definition set_filter (opts : list (string * string)) (v : string) (pg : Page) : Page :=
  mkPage (titleInput pg) (contentInput pg) (tagsInput pg) (editIdInput pg) (formTitle pg)
         (cancelHidden pg) opts v (blogList pg) (scroll pg).

Definition set_blogList (v : string) (pg : Page) : Page :=
  mkPage (titleInput pg) (contentInput pg) (tagsInput pg) (editIdInput pg) (formTitle pg)
         (cancelHidden pg) (filterOptions pg) (filterValue pg) v (scroll pg).

Definition set_scroll (v : Z * Z) (pg : Page) : Page :=
  mkPage (titleInput pg) (contentInput pg) (tagsInput pg) (editIdInput pg) (formTitle pg)
         (cancelHidden pg) (filterOptions pg) (filterValue pg) (blogList pg) v.

(** ** class BlogUI *)

(** The texts of the script; those in Thai are held in UTF-8. *)
Module Text.
Definition q : string := String Browser.quote EmptyString.
Definition nl : string := String "010" EmptyString.
Definition all_posts : string := "ทั้งหมด".
Definition edit_heading : string := "แก้ไขบล็อก".
Definition new_heading : string := "เขียนบล็อกใหม่".

(** The pieces of the template of one post in [render], between its
    placeholders. *)
Definition block0 : string :=
  nl +:+ "                <div class=" +:+ q +:+ "blog-post" +:+ q +:+ ">" +:+ nl +:+ "                    <h2 class=" +:+ q +:+ "blog-title" +:+ q +:+ ">".

Definition block1 : string :=
  "</h2>" +:+ nl +:+ "                    <div class=" +:+ q +:+ "blog-date" +:+ q +:+ ">" +:+ nl +:+ "                        อัพเดทเมื่อ: ".

Definition block2 : string :=
  nl +:+ "                    </div>" +:+ nl +:+ "                    <div class=" +:+ q +:+ "blog-tags" +:+ q +:+ ">" +:+ nl +:+ "                        ".

Definition block3 : string :=
  nl +:+ "                    </div>" +:+ nl +:+ "                    <div class=" +:+ q +:+ "blog-content" +:+ q +:+ ">" +:+ nl +:+ "                        ".

Definition block4 : string :=
  nl +:+ "                    </div>" +:+ nl +:+ "                    <div class=" +:+ q +:+ "blog-actions" +:+ q +:+ ">" +:+ nl +:+ "                        <button class=" +:+ q +:+ "btn-edit" +:+ q +:+ " onclick=" +:+ q +:+ "blogUI.editBlog(".

Definition block5 : string :=
  ")" +:+ q +:+ ">แก้ไข</button>" +:+ nl +:+ "                        <button class=" +:+ q +:+ "btn-delete" +:+ q +:+ " onclick=" +:+ q +:+ "blogUI.deleteBlog(".

Definition block6 : string :=
  ")" +:+ q +:+ ">ลบ</button>" +:+ nl +:+ "                    </div>" +:+ nl +:+ "                </div>" +:+ nl +:+ "                ".

Definition tag_span (tag : string) : string :=
  "<span class=" +:+ q +:+ "tag" +:+ q +:+ ">" +:+ tag +:+ "</span>".
End Text.

(** The tags of a collection and its entries under a tag, as
    [getAllTags] and [filterByTag] compute them. *)
Definition tagsOf (l : list Blog) : list string :=
  Array_sort default_compare
    (foldl (λ s b, foldl (λ s tag, Set_add tag s) s (tags b)) [] l).

Definition taggedWith (x : string) (l : list Blog) : list Blog :=
  if decide (x = ""%string) then l else filter (λ b, x ∈ tags b) l.

Section ui.
Context `{P : Platform} `{D : Document}.

Definition getFormattedDate (b : Blog) : string :=
  Date_toLocaleString (updatedDate b).

(** The markup of one post. *)
Definition post_markup (blog : Blog) : string :=
  Text.block0 +:+ title blog
  +:+ Text.block1 +:+ getFormattedDate blog
  +:+ Text.block2 +:+ JS.join "" (Text.tag_span <$> tags blog)
  +:+ Text.block3 +:+ JS.br_for_newlines (content blog)
  +:+ Text.block4 +:+ JS.Number_toString (id blog)
  +:+ Text.block5 +:+ JS.Number_toString (id blog)
  +:+ Text.block6.

Definition render (pg : Page) : M Page :=
  blogsToShow ← filterByTag (Some (filterValue pg));
  mret (set_blogList (JS.join "" (post_markup <$> blogsToShow)) pg).

(** Assigning the markup of the first option leaves the filter with that
    option alone, and its value; the other options are appended; the
    value selected before comes back if it is one of the tags. *)
Definition updateTagFilter (pg : Page) : M Page :=
  tg ← getAllTags;
  let currentValue := filterValue pg in
  let options := (EmptyString, Text.all_posts) :: ((λ tag, (tag, tag)) <$> tg) in
  mret (set_filter options
          (if decide (currentValue ∈ tg) then currentValue else EmptyString) pg).

Definition resetForm (pg : Page) : Page :=
  set_cancelHidden true
    (set_formTitle Text.new_heading
       (set_input EditIdInput (held EditIdInput EmptyString) (form_reset pg))).

(** The tags of the form: the pieces between commas, trimmed, the empty
    ones dropped. *)
Definition parseTags (s : string) : list string :=
  filter (λ tag, tag ≠ EmptyString) (JS.trim <$> JS.split "," s).

(** An id is taken for one when it is a number other than 0. *)
Definition handleSubmit (pg : Page) : M Page :=
  let t := JS.trim (titleInput pg) in
  let c := JS.trim (contentInput pg) in
  let tg := parseTags (tagsInput pg) in
  let editId := JS.parseInt (editIdInput pg) in
  if decide (t ≠ EmptyString ∧ c ≠ EmptyString) then
    match editId with
    | Some i => if decide (i ≠ 0) then updateBlog i t c tg;; mret ()
                else addBlog t c tg;; mret ()
    | None => addBlog t c tg;; mret ()
    end;;
    pg ← updateTagFilter (resetForm pg);
    render pg
  else mret pg.

Definition BlogUI_editBlog (i : Z) (pg : Page) : M Page :=
  blog ← getBlog i;
  match blog with
  | Some b =>
      mret (set_scroll (0, 0)
             (set_cancelHidden false
               (set_formTitle Text.edit_heading
                 (set_input EditIdInput (held EditIdInput (JS.Number_toString (id b)))
                   (set_input TagsInput (held TagsInput (JS.join ", " (tags b)))
                     (set_input ContentInput (held ContentInput (content b))
                       (set_input TitleInput (held TitleInput (title b)) pg)))))))
  | None => mret pg
  end.

(** [confirmed] is the answer to [confirm]. *)
Definition BlogUI_deleteBlog (i : Z) (confirmed : bool) (pg : Page) : M Page :=
  if confirmed then
    deleteBlog i;;
    pg ← updateTagFilter pg;
    render pg
  else mret pg.

Definition BlogUI_new (pg : Page) : M Page :=
  pg ← updateTagFilter pg;
  render pg.

(** The last two lines of the script. *)
Definition startup (pg : Page) : M Page :=
  BlogManager_new;;
  BlogUI_new pg.

(** *** What the user does *)

(** Typing into one of the three fields, sending the form, the cancel
    button, choosing an option of the filter, and the two buttons of a
    post, the second with the answer to the question it asks. *)
Inductive event : Type :=
  | Type_in (c : control) (v : string)
  | Submit
  | Cancel
  | Choose (v : string)
  | Edit (i : Z)
  | Remove (i : Z) (confirmed : bool).

(** The hidden field cannot be typed into, and only an option that is
    there can be chosen. *)
Definition handle (e : event) (pg : Page) : M Page :=
  match e with
  | Type_in c v =>
      mret (match c with EditIdInput => pg | _ => set_input c v pg end)
  | Submit => handleSubmit pg
  | Cancel => mret (resetForm pg)
  | Choose v =>
      if decide (v ∈ (filterOptions pg).*1)
      then render (set_filter (filterOptions pg) v pg)
      else mret pg
  | Edit i => BlogUI_editBlog i pg
  | Remove i confirmed => BlogUI_deleteBlog i confirmed pg
  end.

(** The pages and worlds after each event of a sequence. *)
Fixpoint session (es : list event) (pg : Page) (w : World) : result (list (Page * World)) :=
  match es with
  | [] => Ok []
  | e :: es' =>
      match handle e pg w with
      | Ok (pg', w') =>
          match session es' pg' w' with
          | Ok rest => Ok ((pg', w') :: rest)
          | Throw x => Throw x
          end
      | Throw x => Throw x
      end
  end.

End ui.

(** ** More predicates of the statements *)

(** A tag as the form makes them: not empty, nothing to trim, no comma. *)
Definition clean_tag (t : string) : Prop :=
  t ≠ EmptyString ∧ JS.trim t = t ∧ ","%char ∉ JS.chars t.

(** An entry as the form makes them. *)
Definition tidy (b : Blog) : Prop :=
  title b ≠ EmptyString ∧ JS.trim (title b) = title b ∧
  content b ≠ EmptyString ∧ JS.trim (content b) = content b ∧
  Forall clean_tag (tags b).

(** The store holds the text of the array. *)
Definition in_sync `{P : Platform} (w : World) : Prop :=
  localStorage w !! "blogs"%string
    = Some (JSON_stringify (JArr (Blog_toJSON <$> blogs w))).

(** The list on the page is the markup of the entries under the tag
    selected, and the filter offers the tags of the collection. *)
Definition view_current `{D : Document} (pg : Page) (w : World) : Prop :=
  blogList pg = JS.join "" (post_markup <$> taggedWith (filterValue pg) (blogs w)).

Definition filter_current (pg : Page) (w : World) : Prop :=
  (filterOptions pg).*1 = EmptyString :: tagsOf (blogs w) ∧
  filterValue pg ∈ (filterOptions pg).*1.

(** A form whose reset leaves the filter and the list alone. *)
Definition reset_within_form `{D : Document} : Prop :=
  ∀ pg, filterOptions (form_reset pg) = filterOptions pg ∧
        filterValue (form_reset pg) = filterValue pg ∧
        blogList (form_reset pg) = blogList pg.

(** The store is as the manager left it: it holds the text of the array,
    or it holds nothing and the array is empty, as for a manager just
    made on a page that was never written. *)
Definition up_to_date `{P : Platform} (w : World) : Prop :=
  in_sync w ∨ (localStorage w !! "blogs"%string = None ∧ blogs w = []).

(** The two states of the form.  It is set for a new post when the
    hidden field holds no id, the cancel button is hidden and the heading
    says so; it is set for the edit of the entry [n] when the field holds
    [n], the button shows and the heading says so. *)
Definition create_mode `{D : Document} (pg : Page) : Prop :=
  editIdInput pg = held EditIdInput EmptyString ∧
  cancelHidden pg = true ∧ formTitle pg = Text.new_heading.

Definition edit_mode `{D : Document} (n : Z) (pg : Page) : Prop :=
  editIdInput pg = held EditIdInput (JS.Number_toString n) ∧
  cancelHidden pg = false ∧ formTitle pg = Text.edit_heading.

(** The controls of the form hold the fields of [b] as they are assigned:
    no control alters them. *)
Definition held_as_written `{D : Document} (b : Blog) : Prop :=
  held TitleInput (title b) = title b ∧
  held ContentInput (content b) = content b ∧
  held TagsInput (JS.join ", " (tags b)) = JS.join ", " (tags b) ∧
  held EditIdInput (JS.Number_toString (id b)) = JS.Number_toString (id b).

(** A number that holds an integer exactly. *)
Definition safe_integer (n : Z) : Prop := Z.abs n ≤ 9007199254740991.

(** ** A sample page *)

Module SamplePage.

Definition one_line (s : string) : string :=
  String.string_of_list_ascii
    (filter (λ c, c ≠ "010"%char ∧ c ≠ "013"%char) (String.list_ascii_of_string s)).

(** A document whose title, tags and id fields are inputs of one line and
    whose content field is a text area, all empty by default and all in
    the form, with the filter outside of it; dates are shown in the ISO
    form. *)
Definition document : Document :=
  {| held c v := match c with ContentInput => v | _ => one_line v end;
     form_reset pg :=
       set_input TagsInput EmptyString
         (set_input ContentInput EmptyString (set_input TitleInput EmptyString pg));
     Date_toLocaleString := Browser.toISOString |}.

Definition blank : Page :=
  mkPage EmptyString EmptyString EmptyString EmptyString
         Text.new_heading true [] EmptyString EmptyString (0, 0).

(** The form filled in for a new post. *)
Definition filled : Page :=
  set_input TagsInput " x, y ,,"
    (set_input ContentInput ("  line 1" +:+ Text.nl +:+ "line 2 ")
       (set_input TitleInput " C " blank)).

(** A visit: a post is written, chosen by a tag, edited, and removed. *)
Definition visit : list event :=
  [ Type_in TitleInput " C "; Type_in ContentInput "body3"; Type_in TagsInput "y, z";
    Submit; Choose "y"; Edit 1700000000000; Type_in TitleInput "C2"; Submit;
    Edit 1699999990000; Cancel; Remove 1699999992000 false;
    Remove 1699999992000 true; Submit ].

End SamplePage.

(** * Properties *)

(** ** Strings *)

Lemma byte_range a : 0 ≤ Unicode.byte a < 256.
Proof. unfold Unicode.byte. pose proof (N_ascii_bounded a). lia. Qed.

(** Goals about the bytes of a character are goals of arithmetic. *)
Ltac byte_bounds :=
  repeat match goal with
         | a : ascii |- _ =>
             lazymatch goal with
             | _ : 0 ≤ Unicode.byte a < 256 |- _ => fail
             | _ => pose proof (byte_range a)
             end
         end.

Ltac by_ranges :=
  byte_bounds;
  unfold Unicode.lone, Unicode.two, Unicode.three, Unicode.four, Unicode.continues in *;
  repeat case_decide; simplify_eq; try done; try lia.

Section unicode_facts.
Import Unicode.

Lemma byte_inj a b : byte a = byte b → a = b.
Proof.
  unfold byte. intros H. apply N2Z.inj in H.
  by rewrite <- (ascii_N_embedding a), <- (ascii_N_embedding b), H.
Qed.

Lemma units_compare_antisym x y :
  units_compare y x = CompOpp (units_compare x y).
Proof.
  revert y. induction x as [|a x IH]; intros [|b y]; simpl; try done.
  rewrite (Z.compare_antisym a b). destruct (a ?= b); simpl; auto.
Qed.

Lemma units_compare_trans x y z :
  units_compare x y ≠ Gt → units_compare y z ≠ Gt → units_compare x z ≠ Gt.
Proof.
  revert y z. induction x as [|a x IH]; intros [|b y] [|c z]; simpl; try done.
  destruct (Z.compare_spec a b), (Z.compare_spec b c); subst; try done.
  - rewrite Z.compare_refl. apply IH.
  - intros _ _. by rewrite (proj2 (Z.compare_lt_iff _ _)).
  - intros _ _. by rewrite (proj2 (Z.compare_lt_iff _ _)).
  - intros _ _. rewrite (proj2 (Z.compare_lt_iff a c)); [done|lia].
Qed.

Global Instance units_le_trans : Transitive units_le.
Proof. intros x y z. apply units_compare_trans. Qed.

Lemma front_rest s p r :
  front s = Some (p, r) → ∃ a bytes, s = String a bytes +:+ r.
Proof.
  destruct s as [|a [|b [|c [|d s]]]]; simpl; [done|..];
    repeat case_decide; intros ?; simplify_eq.
  - by exists a, "".
  - by exists a, (String b "").
  - by exists a, "".
  - by exists a, (String b "").
  - by exists a, (String b (String c "")).
  - by exists a, "".
  - by exists a, (String b "").
  - by exists a, (String b (String c "")).
  - by exists a, (String b (String c (String d ""))).
  - by exists a, "".
Qed.

Lemma string_length_app s1 s2 :
  String.length (s1 +:+ s2) = (String.length s1 + String.length s2)%nat.
Proof. induction s1 as [|c s1 IH]; simpl; [done|]. by rewrite IH. Qed.

Lemma front_shorter s p r :
  front s = Some (p, r) → (String.length r < String.length s)%nat.
Proof.
  intros (a & bytes & ->)%front_rest.
  change (String a bytes +:+ r) with (String a (bytes +:+ r)).
  simpl. rewrite string_length_app. lia.
Qed.

Lemma front_None s : front s = None ↔ s = EmptyString.
Proof. by destruct s. Qed.

(** Induction over the characters of a string. *)
Lemma front_ind (Q : string → Prop) :
  Q EmptyString →
  (∀ s p r, front s = Some (p, r) → Q r → Q s) →
  ∀ s, Q s.
Proof.
  intros Hnil Hstep s.
  remember (String.length s) as n eqn:Hn. revert s Hn.
  induction n as [n IH] using lt_wf_ind. intros s ->.
  destruct (front s) as [[p r]|] eqn:Hf.
  - apply (Hstep s p r Hf). apply (IH (String.length r)); [|done].
    by apply front_shorter in Hf.
  - by apply front_None in Hf as ->.
Qed.

Lemma points_upto_any n m s :
  (String.length s ≤ n)%nat → (String.length s ≤ m)%nat →
  points_upto n s = points_upto m s.
Proof.
  revert m s. induction n as [|n IH]; intros m s Hn Hm.
  - destruct s; [by destruct m|simpl in Hn; lia].
  - destruct m as [|m]; [destruct s; [done|simpl in Hm; lia]|].
    cbn [points_upto]. destruct (front s) as [[p r]|] eqn:Hf; [|done].
    pose proof (front_shorter _ _ _ Hf) as Hr.
    f_equal. apply IH; lia.
Qed.

Lemma points_upto_enough n s :
  (String.length s ≤ n)%nat → points_upto n s = code_points s.
Proof. intros Hn. by apply points_upto_any. Qed.

Lemma code_points_front s :
  code_points s =
    match front s with
    | Some (p, r) => p :: code_points r
    | None => []
    end.
Proof.
  destruct s as [|a s']; [done|].
  unfold code_points at 1.
  change (String.length (String a s')) with (S (String.length s')).
  cbn [points_upto]. destruct (front (String a s')) as [[p r]|] eqn:Hf; [|done].
  pose proof (front_shorter _ _ _ Hf) as Hr. simpl in Hr.
  by rewrite points_upto_enough by lia.
Qed.

Lemma front_ascii a r : byte a < 0x80 → front (String a r) = Some (byte a, r).
Proof.
  intros Ha. destruct r as [|b [|c [|d r]]]; simpl; unfold lone;
    repeat case_decide; try done;
    unfold two, three, four, continues in *; lia.
Qed.

(** A character below [0x80] is one byte of the text. *)
Lemma front_low s p r :
  front s = Some (p, r) → p < 0x80 → ∃ a, s = String a r ∧ byte a = p.
Proof.
  destruct s as [|a [|b [|c [|d s]]]]; simpl; [done|..]; unfold lone;
    repeat case_decide; intros ? Hp; simplify_eq; eauto; by_ranges.
Qed.

(** A byte below [0x80] ends the character before it: what stands in
    front of it is read as it is without it. *)
Lemma front_app_ascii s p r c y :
  front s = Some (p, r) → byte c < 0x80 →
  front (s +:+ String c y) = Some (p, r +:+ String c y).
Proof.
  intros Hf Hc.
  destruct s as [|a [|b [|e [|d s]]]]; [done|..]; simpl in *.
  - destruct y as [|y1 [|y2 y]]; simpl;
      repeat case_decide; simplify_eq; try done;
      unfold two, three, four, continues in *; lia.
  - destruct y as [|y1 y]; simpl;
      repeat case_decide; simplify_eq; try done;
      unfold two, three, four, continues in *; lia.
  - repeat case_decide; simplify_eq; try done;
      unfold two, three, four, continues in *; lia.
  - repeat case_decide; simplify_eq; try done.
Qed.

End unicode_facts.

Section unicode_inj.
Import Unicode.

Lemma front_scalar s p r : front s = Some (p, r) → scalar p.
Proof.
  unfold scalar.
  destruct s as [|a [|b [|c [|d s]]]]; simpl; [done|..];
    intros ?; by_ranges.
Qed.

Lemma code_points_scalar s : Forall scalar (code_points s).
Proof.
  induction s as [|s p r Hf IH] using front_ind; [constructor|].
  rewrite code_points_front, Hf. constructor; [|done]. by eapply front_scalar.
Qed.

(** The four shapes of a character. *)
Lemma front_shapes s p r :
  front s = Some (p, r) →
  (∃ a, s = String a r ∧ p = lone (byte a)) ∨
  (∃ a b, s = String a (String b r) ∧ two (byte a) (byte b) ∧
          p = (byte a - 0xC0) * 0x40 + (byte b - 0x80)) ∨
  (∃ a b c, s = String a (String b (String c r)) ∧
            three (byte a) (byte b) (byte c) ∧
            p = (byte a - 0xE0) * 0x1000 + (byte b - 0x80) * 0x40 + (byte c - 0x80)) ∨
  (∃ a b c d, s = String a (String b (String c (String d r))) ∧
              four (byte a) (byte b) (byte c) (byte d) ∧
              p = (byte a - 0xF0) * 0x40000 + (byte b - 0x80) * 0x1000
                  + (byte c - 0x80) * 0x40 + (byte d - 0x80)).
Proof.
  destruct s as [|a [|b [|c [|d s]]]]; simpl; [done|..];
    repeat case_decide; intros ?; simplify_eq;
    first [ left; by eexists
          | right; left; by eexists _, _
          | right; right; left; by eexists _, _, _
          | right; right; right; by eexists _, _, _, _ ].
Qed.

(** The bytes of a character are determined by its code point. *)
Lemma front_inj s s' p r r' :
  front s = Some (p, r) → front s' = Some (p, r') →
  ∃ bytes, s = bytes +:+ r ∧ s' = bytes +:+ r'.
Proof.
  intros Hs Hs'.
  assert (∀ a b : ascii, byte a = byte b → a = b) as Hinj by apply byte_inj.
  apply front_shapes in Hs, Hs'.
  destruct Hs as [(a & -> & Hp)|[(a & b & -> & Hs & Hp)|[(a & b & c & -> & Hs & Hp)
                 |(a & b & c & d & -> & Hs & Hp)]]];
  destruct Hs' as [(a' & -> & Hp')|[(a' & b' & -> & Hs' & Hp')|[(a' & b' & c' & -> & Hs' & Hp')
                 |(a' & b' & c' & d' & -> & Hs' & Hp')]]];
  byte_bounds; unfold lone, two, three, four, continues in *;
  repeat case_decide; try (exfalso; lia).
  - exists (String a ""). by rewrite (Hinj a a') by lia.
  - exists (String a ""). by rewrite (Hinj a a') by lia.
  - exists (String a (String b "")). by rewrite (Hinj a a'), (Hinj b b') by lia.
  - exists (String a (String b (String c ""))).
    by rewrite (Hinj a a'), (Hinj b b'), (Hinj c c') by lia.
  - exists (String a (String b (String c (String d "")))).
    by rewrite (Hinj a a'), (Hinj b b'), (Hinj c c'), (Hinj d d') by lia.
Qed.

(** Different texts have different characters. *)
Lemma code_points_inj s s' : code_points s = code_points s' → s = s'.
Proof.
  revert s'. induction s as [|s p r Hf IH] using front_ind; intros s'.
  - rewrite (code_points_front s').
    destruct (front s') as [[p' r']|] eqn:Hf'; [done|]. by apply front_None in Hf'.
  - rewrite (code_points_front s), Hf, (code_points_front s').
    destruct (front s') as [[p' r']|] eqn:Hf'; [|done].
    intros [= <- Hr]. apply IH in Hr as <-.
    by destruct (front_inj _ _ _ _ _ Hf Hf') as (bytes & -> & ->).
Qed.

(** And different code units: a surrogate pair begins with a code unit
    that stands for no character by itself. *)
Lemma utf16_inj (l l' : list Z) :
  Forall scalar l → Forall scalar l' →
  l ≫= utf16 = l' ≫= utf16 → l = l'.
Proof.
  intros Hl. revert l'. induction Hl as [|p l Hp Hl IH]; intros l' Hl'.
  - destruct Hl' as [|p' l' Hp' Hl']; [done|].
    rewrite bind_cons. unfold utf16. by case_decide.
  - destruct Hl' as [|p' l' Hp' Hl'].
    + rewrite bind_cons. unfold utf16. by case_decide.
    + rewrite !bind_cons. unfold utf16, scalar in *.
      repeat case_decide; simpl.
      * intros [= H1 H2]. f_equal; [done|]. by apply IH.
      * intros [= H1 _]. exfalso. revert H1. Z.div_mod_to_equations. lia.
      * intros [= H1 _]. exfalso. revert H1. Z.div_mod_to_equations. lia.
      * intros [= H1 H2 H3]. f_equal; [|by apply IH].
        revert H1 H2. Z.div_mod_to_equations. lia.
Qed.

Lemma code_units_inj s s' : code_units s = code_units s' → s = s'.
Proof.
  intros H. apply code_points_inj.
  by apply utf16_inj in H; [|apply code_points_scalar..].
Qed.

Lemma units_compare_Eq x y : units_compare x y = Eq → x = y.
Proof.
  revert y. induction x as [|a x IH]; intros [|b y]; simpl; try done.
  destruct (Z.compare_spec a b); [|done..]. intros ?%IH. by subst.
Qed.

(** So the order of the code units is a strict order of the texts. *)
Lemma units_le_lt x y : units_le x y → x ≠ y → units_lt x y.
Proof.
  unfold units_le, units_lt. intros Hle Hne.
  destruct (units_compare (code_units x) (code_units y)) eqn:Hc; [|done..].
  by apply units_compare_Eq, code_units_inj in Hc.
Qed.

End unicode_inj.

Ltac run :=
  repeat (progress (cbn [mbind mret M_bind M_ret fst snd] in *;
                    unfold mbind, mret, M_bind, M_ret, throw, get_blogs, put_blogs,
                           set_blogs, set_localStorage, set_ticks in *;
                    cbn [blogs localStorage ticks fst snd] in *)).

Global Instance newer_first_trans : Transitive newer_first.
Proof. unfold newer_first. intros a b c ??. lia. Qed.

Global Instance newer_first_dec : RelDecision newer_first.
Proof. unfold newer_first. intros a b. apply _. Defined.

(** ** The sort *)

Section sort_facts.
Context {A : Type} (cmp : A → A → Z).

Lemma sort_insert_perm x l : sort_insert cmp x l ≡ₚ x :: l.
Proof.
  induction l as [|y l IH]; simpl; [done|].
  case_decide; [|done].
  rewrite IH. apply Permutation_swap.
Qed.

Lemma Array_sort_perm l : Array_sort cmp l ≡ₚ l.
Proof.
  induction l as [|x l IH]; simpl; [done|].
  fold (Array_sort cmp l). by rewrite sort_insert_perm, IH.
Qed.

Lemma Array_sort_elem_of x l : x ∈ Array_sort cmp l ↔ x ∈ l.
Proof. by rewrite Array_sort_perm. Qed.

Lemma Array_sort_length l : length (Array_sort cmp l) = length l.
Proof. by rewrite Array_sort_perm. Qed.

(** Stability: elements of which none compares greater than another keep
    the order they had. *)
Lemma sort_insert_stable (Q : A → Prop) `{∀ x, Decision (Q x)} x l :
  (∀ y z, Q y → Q z → cmp y z ≤ 0) →
  filter Q (sort_insert cmp x l) = filter Q (x :: l).
Proof.
  intros HQ. induction l as [|y l IH]; simpl; [done|].
  case_decide as Hc; [|done].
  rewrite filter_cons, IH, !filter_cons.
  destruct (decide (Q x)) as [Hx|Hx], (decide (Q y)) as [Hy|Hy]; try done.
  specialize (HQ x y Hx Hy). lia.
Qed.

Lemma Array_sort_stable (Q : A → Prop) `{∀ x, Decision (Q x)} l :
  (∀ y z, Q y → Q z → cmp y z ≤ 0) →
  filter Q (Array_sort cmp l) = filter Q l.
Proof.
  intros HQ. induction l as [|x l IH]; simpl; [done|].
  fold (Array_sort cmp l).
  by rewrite sort_insert_stable, !filter_cons, IH.
Qed.

(** An order [R] that the comparator decides. *)
Context (R : relation A) `{!Transitive R}.
Hypothesis cmp_le : ∀ x y, cmp x y ≤ 0 → R x y.
Hypothesis cmp_gt : ∀ x y, 0 < cmp x y → R y x.

Lemma sort_insert_sorted x l :
  StronglySorted R l → StronglySorted R (sort_insert cmp x l).
Proof.
  induction 1 as [|y l Hl IH Hy]; simpl.
  - repeat constructor.
  - case_decide as Hc.
    + constructor; [done|].
      rewrite sort_insert_perm. constructor; auto.
    + assert (R x y) by (apply cmp_le; lia).
      constructor; [by constructor|].
      constructor; [done|].
      eapply Forall_impl; [exact Hy|]. intros z ?. by trans y.
Qed.

Lemma Array_sort_sorted l : StronglySorted R (Array_sort cmp l).
Proof.
  induction l as [|x l IH]; simpl; [constructor|].
  by apply sort_insert_sorted.
Qed.

(** Stability, in the form the manager relies on: an array already in
    order is left as it is. *)
Lemma Array_sort_of_sorted l :
  StronglySorted (λ x y, cmp x y ≤ 0) l → Array_sort cmp l = l.
Proof.
  induction 1 as [|x l Hl IH Hx]; simpl; [done|].
  fold (Array_sort cmp l). rewrite IH.
  destruct l as [|y l']; simpl; [done|].
  apply Forall_cons in Hx as [Hxy _].
  case_decide; [lia|done].
Qed.
End sort_facts.

Section manager_facts.
Context `{P : Platform}.

Lemma sorted_after_sort l :
  sorted_newest_first (Array_sort (λ a b, updatedDate b - updatedDate a) l).
Proof.
  apply Array_sort_sorted; [apply _|..]; unfold newer_first; intros; lia.
Qed.

Lemma sorted_filter (Q : Blog → Prop) `{∀ b, Decision (Q b)} l :
  sorted_newest_first l → sorted_newest_first (filter Q l).
Proof.
  induction 1 as [|x l Hl IH Hx]; [constructor|].
  rewrite filter_cons. case_decide; [|done].
  constructor; [done|].
  apply Forall_forall. intros y [_ Hy]%list_elem_of_filter.
  by eapply Forall_forall in Hx.
Qed.

(** What each mutating method leaves in the world. *)
Lemma addBlog_spec t c tg w :
  let blog := mkBlog (clock (ticks w)) t c tg
                     (clock (S (ticks w))) (clock (S (S (ticks w)))) in
  let l := Array_sort (λ a b, updatedDate b - updatedDate a) (blogs w ++ [blog]) in
  addBlog t c tg w =
    Ok (blog, mkWorld l
                (<["blogs"%string := JSON_stringify (JArr (Blog_toJSON <$> l))]> (localStorage w))
                (S (S (S (ticks w))))).
Proof. done. Qed.

Lemma updateBlog_found i t c tg w slot blog :
  findBlog i (blogs w) = Some (slot, blog) →
  let blog' := mkBlog (id blog) t c tg (createdDate blog) (clock (ticks w)) in
  let l := Array_sort (λ a b, updatedDate b - updatedDate a) (<[slot := blog']> (blogs w)) in
  updateBlog i t c tg w =
    Ok (Some blog', mkWorld l
                (<["blogs"%string := JSON_stringify (JArr (Blog_toJSON <$> l))]> (localStorage w))
                (S (ticks w))).
Proof. intros Hf. unfold updateBlog. run. by rewrite Hf. Qed.

Lemma updateBlog_missing i t c tg w :
  findBlog i (blogs w) = None → updateBlog i t c tg w = Ok (None, w).
Proof. intros Hf. unfold updateBlog. run. by rewrite Hf. Qed.

Lemma deleteBlog_spec i w :
  let l := filter (λ b, id b ≠ i) (blogs w) in
  deleteBlog i w =
    Ok ((), mkWorld l
              (<["blogs"%string := JSON_stringify (JArr (Blog_toJSON <$> l))]> (localStorage w))
              (ticks w)).
Proof. done. Qed.

End manager_facts.

(** ** The order of the collection *)

Section order.
Context `{P : Platform}.

Lemma perform_Ok k w : ∃ w', perform k w = Ok ((), w').
Proof.
  destruct k as [t c tg|i t c tg|i]; simpl.
  - unfold mbind, M_bind. rewrite addBlog_spec. eauto.
  - unfold mbind, M_bind.
    destruct (findBlog i (blogs w)) as [[slot blog]|] eqn:Hf.
    + rewrite (updateBlog_found _ _ _ _ _ _ _ Hf). eauto.
    + rewrite (updateBlog_missing _ _ _ _ _ Hf). eauto.
  - rewrite deleteBlog_spec. eauto.
Qed.

Lemma perform_sorted k w w' :
  perform k w = Ok ((), w') →
  sorted_newest_first (blogs w) → sorted_newest_first (blogs w').
Proof.
  destruct k as [t c tg|i t c tg|i]; simpl.
  - unfold mbind, M_bind. rewrite addBlog_spec.
    intros [= <-] _. apply sorted_after_sort.
  - unfold mbind, M_bind.
    destruct (findBlog i (blogs w)) as [[slot blog]|] eqn:Hf.
    + rewrite (updateBlog_found _ _ _ _ _ _ _ Hf).
      intros [= <-] _. apply sorted_after_sort.
    + rewrite (updateBlog_missing _ _ _ _ _ Hf). by intros [= <-].
  - rewrite deleteBlog_spec. intros [= <-] Hs. by apply sorted_filter.
Qed.

(** C1.  Whatever calls of [addBlog], [updateBlog] and [deleteBlog] are
    made on a manager whose array is in order (the empty array of a new
    manager is), every call returns, and after each of them the array
    is sorted by [updatedDate], newest first. *)
Theorem sorted_after_every_call (ks : list call) (w : World) :
  sorted_newest_first (blogs w) →
  ∃ ws, trace ks w = Ok ws ∧ length ws = length ks ∧
        Forall (λ w', sorted_newest_first (blogs w')) ws.
Proof.
  revert w. induction ks as [|k ks IH]; intros w Hw; simpl.
  - exists []. by repeat split.
  - destruct (perform_Ok k w) as [w' Hk]. rewrite Hk.
    pose proof (perform_sorted _ _ _ Hk Hw) as Hw'.
    destruct (IH w' Hw') as (ws & -> & Hlen & Hall).
    exists (w' :: ws). repeat split; [simpl; by f_equal|by constructor].
Qed.

(** A new manager on a page without stored posts starts from the empty
    array, which is in order. *)
Lemma BlogManager_new_empty w :
  localStorage w !! "blogs"%string = None →
  BlogManager_new w = Ok ((), set_blogs [] w).
Proof.
  intros Hs. unfold BlogManager_new, loadFromLocalStorage, getItem. run.
  by rewrite Hs.
Qed.
End order.

(** ** Lookup, update and removal by id *)

Section by_id.
Context `{P : Platform}.

(** [find] splits the array at the first entry with the id. *)
Lemma findBlog_Some i l slot blog :
  findBlog i l = Some (slot, blog) ↔
  ∃ l1 l2, l = l1 ++ blog :: l2 ∧ length l1 = slot ∧ id blog = i ∧
           Forall (λ x, id x ≠ i) l1.
Proof.
  unfold findBlog. rewrite list_find_Some. split.
  - intros (Hl & Hid & Hfirst).
    exists (take slot l), (drop (S slot) l). repeat split.
    + by rewrite take_drop_middle.
    + apply length_take_le. apply lookup_lt_Some in Hl. lia.
    + done.
    + apply Forall_forall. intros x Hx.
      apply list_elem_of_lookup in Hx as [j Hj].
      pose proof (lookup_lt_Some _ _ _ Hj) as Hlt.
      rewrite length_take in Hlt.
      rewrite lookup_take_lt in Hj by lia.
      apply (Hfirst j x Hj). lia.
  - intros (l1 & l2 & -> & <- & Hid & Hfirst). repeat split.
    + by rewrite list_lookup_middle.
    + done.
    + intros j y Hj Hlt. rewrite lookup_app_l in Hj by done.
      rewrite Forall_forall in Hfirst. apply Hfirst.
      apply list_elem_of_lookup. eauto.
Qed.

Lemma findBlog_None i l :
  findBlog i l = None ↔ Forall (λ x, id x ≠ i) l.
Proof. unfold findBlog. by rewrite list_find_None. Qed.

Lemma findBlog_present i l b :
  b ∈ l → id b = i → ∃ slot blog, findBlog i l = Some (slot, blog).
Proof.
  intros Hb Hid.
  destruct (findBlog i l) as [[slot blog]|] eqn:Hf; [eauto|].
  apply findBlog_None in Hf. rewrite Forall_forall in Hf.
  by destruct (Hf b Hb).
Qed.

Lemma filter_all {A} (Q : A → Prop) `{∀ x, Decision (Q x)} (l : list A) :
  Forall Q l → filter Q l = l.
Proof.
  induction 1 as [|x l Hx Hl IH]; [done|].
  by rewrite filter_cons_True, IH.
Qed.

(** C5.  [updateBlog] with an id that no entry of the collection has
    returns [undefined] and changes nothing: the array is as it was, and
    so is the store, which is not written (nor is the clock read). *)
Theorem updateBlog_unknown_id (w : World) (i : Z) (t c : string) (tg : list string) :
  Forall (λ b, id b ≠ i) (blogs w) →
  updateBlog i t c tg w = Ok (None, w).
Proof. intros Hi. apply updateBlog_missing. by apply findBlog_None. Qed.

(** C6.  [deleteBlog] with an id that no entry of the collection has
    returns without an exception and leaves the array as it was; the
    store is written all the same, with the text of that array. *)
Theorem deleteBlog_unknown_id (w : World) (i : Z) :
  Forall (λ b, id b ≠ i) (blogs w) →
  ∃ w', deleteBlog i w = Ok ((), w') ∧
        blogs w' = blogs w ∧
        localStorage w' =
          <["blogs"%string := JSON_stringify (JArr (Blog_toJSON <$> blogs w))]>
            (localStorage w).
Proof.
  intros Hi. rewrite deleteBlog_spec. eexists. split; [done|].
  simpl. by rewrite (filter_all _ _ Hi).
Qed.

(** C9, as the code has it.  [updateBlog] reaches an entry by its id,
    and takes the first one in the array that has it.  For an entry [b]
    of the collection with no entry of the same id in front of it (any
    entry, when no two share an id), [updateBlog] with its id writes the
    title, the content and the tags of [b] and sets its [updatedDate] to
    the time of the call; the [id] and the [createdDate] of [b] stay,
    and the array after the call holds the entry so written and,
    unchanged, every other entry it held before, those behind [b] that
    share its id among them. *)
Theorem updateBlog_frame (w : World) (t c : string) (tg : list string)
    (l1 l2 : list Blog) (b : Blog) :
  blogs w = l1 ++ b :: l2 → Forall (λ x, id x ≠ id b) l1 →
  ∃ b' w',
    updateBlog (id b) t c tg w = Ok (Some b', w') ∧
    title b' = t ∧ content b' = c ∧ tags b' = tg ∧
    updatedDate b' = clock (ticks w) ∧
    id b' = id b ∧ createdDate b' = createdDate b ∧
    blogs w' ≡ₚ l1 ++ b' :: l2.
Proof.
  intros Hl Hfirst.
  assert (findBlog (id b) (blogs w) = Some (length l1, b)) as Hf.
  { apply findBlog_Some. by exists l1, l2. }
  rewrite (updateBlog_found _ t c tg _ _ _ Hf).
  eexists _, _. repeat split; try done.
  simpl. rewrite Array_sort_perm, Hl.
  by rewrite (insert_app_r_alt _ _ (length l1)), Nat.sub_diag by lia.
Qed.

(** C10.  [deleteBlog] keeps exactly the entries with another id, in
    their order, so every entry with the id goes, however many there
    are; [getBlog] returns the first entry with the id in the order of
    the array, and [undefined] when there is none. *)
Theorem deleteBlog_all_getBlog_first (w : World) (i : Z) :
  (∃ w', deleteBlog i w = Ok ((), w') ∧
         blogs w' `sublist_of` blogs w ∧
         Forall (λ b, id b ≠ i) (blogs w') ∧
         (∀ b, b ∈ blogs w' ↔ b ∈ blogs w ∧ id b ≠ i) ∧
         (length (blogs w') + length (filter (λ b, id b = i) (blogs w)) =
            length (blogs w))%nat) ∧
  (∀ b, getBlog i w = Ok (Some b, w) ↔
        ∃ l1 l2, blogs w = l1 ++ b :: l2 ∧ id b = i ∧ Forall (λ x, id x ≠ i) l1) ∧
  (getBlog i w = Ok (None, w) ↔ Forall (λ b, id b ≠ i) (blogs w)).
Proof.
  split; [|split].
  - rewrite deleteBlog_spec. eexists. split; [done|]. simpl.
    split_and!.
    + apply sublist_filter.
    + apply Forall_forall. by intros b [? _]%list_elem_of_filter.
    + intros b. rewrite list_elem_of_filter. tauto.
    + induction (blogs w) as [|x l IH]; [done|].
      rewrite !filter_cons. repeat case_decide; simpl; lia.
  - intros b. unfold getBlog. run. split.
    + intros [= Hb].
      destruct (findBlog i (blogs w)) as [[slot blog]|] eqn:Hf; [|done].
      simpl in Hb. injection Hb as ->.
      apply findBlog_Some in Hf as (l1 & l2 & ? & ? & ? & ?). eauto.
    + intros (l1 & l2 & Hl & Hid & Hfirst).
      assert (findBlog i (blogs w) = Some (length l1, b)) as ->; [|done].
      apply findBlog_Some. eauto 10.
  - unfold getBlog. run. rewrite <- findBlog_None. split.
    + intros [= Hb]. by destruct (findBlog i (blogs w)).
    + by intros ->.
Qed.
End by_id.

(** ** Tags *)

Section tag_facts.
Context `{P : Platform}.

Lemma Set_add_elem_of x y s : y ∈ Set_add x s ↔ y = x ∨ y ∈ s.
Proof.
  unfold Set_add. case_decide as Hx.
  - split; [auto|]. by intros [->|?].
  - set_solver.
Qed.

Lemma Set_add_NoDup x s : NoDup s → NoDup (Set_add x s).
Proof.
  intros Hs. unfold Set_add. case_decide as Hx; [done|].
  apply NoDup_app. split_and!; [done| |apply NoDup_singleton].
  intros y Hy ->%list_elem_of_singleton. done.
Qed.

Lemma add_tags_elem_of y tgs s :
  y ∈ foldl (λ s tag, Set_add tag s) s tgs ↔ y ∈ s ∨ y ∈ tgs.
Proof.
  revert s. induction tgs as [|x tgs IH]; intros s; simpl.
  - set_solver.
  - rewrite IH, Set_add_elem_of. set_solver.
Qed.

Lemma add_tags_NoDup tgs s :
  NoDup s → NoDup (foldl (λ s tag, Set_add tag s) s tgs).
Proof.
  revert s. induction tgs as [|x tgs IH]; intros s Hs; simpl; [done|].
  by apply IH, Set_add_NoDup.
Qed.

Lemma all_tags_elem_of y l s :
  y ∈ foldl (λ s b, foldl (λ s tag, Set_add tag s) s (tags b)) s l ↔
  y ∈ s ∨ ∃ b, b ∈ l ∧ y ∈ tags b.
Proof.
  revert s. induction l as [|x l IH]; intros s; simpl.
  - set_solver.
  - rewrite IH, add_tags_elem_of. set_solver.
Qed.

Lemma all_tags_NoDup l s :
  NoDup s → NoDup (foldl (λ s b, foldl (λ s tag, Set_add tag s) s (tags b)) s l).
Proof.
  revert s. induction l as [|x l IH]; intros s Hs; simpl; [done|].
  by apply IH, add_tags_NoDup.
Qed.

Lemma default_compare_sorted (l : list string) :
  StronglySorted Unicode.units_le (Array_sort default_compare l).
Proof.
  apply Array_sort_sorted; [apply _|..]; intros x y;
    unfold default_compare, Unicode.units_le.
  - destruct (Unicode.units_compare _ _); [done|done|lia].
  - rewrite (units_compare_antisym (Unicode.code_units x)).
    destruct (Unicode.units_compare _ _); simpl; [lia|lia|done].
Qed.

(** C3.  [filterByTag] without a tag, or with the empty tag, returns the
    array itself.  With a tag [x] that is not empty it returns the
    entries whose [tags] contain [x], the strings compared as they are:
    a part of the array in the order of the array, holding every entry
    that has the tag and no other. *)
Theorem filterByTag_spec (w : World) (tag : option string) :
  ∃ l, filterByTag tag w = Ok (l, w) ∧
       match tag with
       | None => l = blogs w
       | Some x =>
           if decide (x = ""%string) then l = blogs w
           else l = filter (λ b, x ∈ tags b) (blogs w) ∧
                l `sublist_of` blogs w ∧
                (∀ b, b ∈ l ↔ b ∈ blogs w ∧ x ∈ tags b)
       end.
Proof.
  unfold filterByTag. run. destruct tag as [x|]; [|by eexists].
  case_decide; [by eexists|].
  eexists. split; [done|]. split_and!; [done|apply sublist_filter|].
  intros b. rewrite list_elem_of_filter. tauto.
Qed.

(** The part that [filterByTag] returns is in order when the array is. *)
Lemma filterByTag_sorted w tag l w' :
  filterByTag tag w = Ok (l, w') →
  sorted_newest_first (blogs w) → sorted_newest_first l.
Proof.
  unfold filterByTag. run. destruct tag as [x|]; [|by intros [= <- <-]].
  case_decide; intros [= <- <-]; [done|]. apply sorted_filter.
Qed.

(** In a sorted array without duplicates each tag is before the later
    ones. *)
Lemma sorted_NoDup_strict (l : list string) :
  StronglySorted Unicode.units_le l → NoDup l → StronglySorted Unicode.units_lt l.
Proof.
  induction 1 as [|x l Hl IH Hx]; intros Hnd; [constructor|].
  apply NoDup_cons in Hnd as [Hxl Hnd].
  constructor; [auto|].
  apply Forall_forall. intros y Hy. rewrite Forall_forall in Hx.
  apply units_le_lt; [auto|]. by intros ->.
Qed.

(** C4.  [getAllTags] returns the tags of all entries of the collection:
    each tag that some entry carries, once however many entries carry
    it, and in ascending order of the strings as [sort()] compares them,
    by their UTF-16 code units: each tag is before every later one. *)
Theorem getAllTags_spec (w : World) :
  ∃ ts, getAllTags w = Ok (ts, w) ∧
        (∀ x, x ∈ ts ↔ ∃ b, b ∈ blogs w ∧ x ∈ tags b) ∧
        NoDup ts ∧
        StronglySorted Unicode.units_lt ts.
Proof.
  unfold getAllTags. run. eexists. split; [done|].
  assert (NoDup (Array_sort default_compare
    (foldl (λ s b, foldl (λ s tag, Set_add tag s) s (tags b)) [] (blogs w)))) as Hnd.
  { rewrite Array_sort_perm. apply all_tags_NoDup, NoDup_nil_2. }
  split_and!.
  - intros x. rewrite Array_sort_elem_of, all_tags_elem_of, elem_of_nil. tauto.
  - done.
  - apply sorted_NoDup_strict; [apply default_compare_sorted|done].
Qed.
End tag_facts.

(** ** The store *)

Section store.
Context `{P : Platform}.

Lemma bind_Ok {A B} (m : M A) (f : A → M B) w a w' :
  m w = Ok (a, w') → (m ≫= f) w = f a w'.
Proof. unfold mbind, M_bind. by intros ->. Qed.

Lemma mapM_as_string tg w :
  mapM (λ x, as_string (Some x)) (JStr <$> tg) w = Ok (tg, w).
Proof.
  induction tg as [|x tg IH]; [done|].
  cbn [fmap list_fmap mapM].
  erewrite bind_Ok by reflexivity. by erewrite bind_Ok by exact IH.
Qed.

Lemma Blog_fromJSON_toJSON b w :
  date_round_trips (createdDate b) → date_round_trips (updatedDate b) →
  Blog_fromJSON (Blog_toJSON b) w = Ok (b, set_ticks (S (S (ticks w))) w).
Proof.
  unfold date_round_trips. intros Hc Hu. destruct b as [i t c tg cd ud].
  unfold Blog_fromJSON, Blog_toJSON.
  cbn [JSON_get id title content tags createdDate updatedDate] in *.
  repeat (case_decide; [try discriminate|try congruence]).
  do 3 (erewrite bind_Ok by reflexivity).
  erewrite bind_Ok by apply mapM_as_string.
  erewrite bind_Ok by reflexivity.
  unfold Date_of. rewrite Hc, Hu. by run.
Qed.

Lemma mapM_Blog_fromJSON l w :
  Forall (λ b, date_round_trips (createdDate b) ∧ date_round_trips (updatedDate b)) l →
  mapM Blog_fromJSON (Blog_toJSON <$> l) w
    = Ok (l, set_ticks (2 * length l + ticks w) w).
Proof.
  intros Hl. revert w. induction Hl as [|b l [Hc Hu] Hl IH]; intros w.
  - simpl. run. by destruct w.
  - cbn [fmap list_fmap mapM].
    erewrite bind_Ok by (by apply Blog_fromJSON_toJSON).
    erewrite bind_Ok by apply IH. run.
    do 3 f_equal. simpl. lia.
Qed.

(** A manager made on a page whose store holds the text of an array that
    the platform reads back. *)
Lemma BlogManager_new_restores l page :
  localStorage page !! "blogs"%string
    = Some (JSON_stringify (JArr (Blog_toJSON <$> l))) →
  JSON_parse (JSON_stringify (JArr (Blog_toJSON <$> l)))
    = Some (JArr (Blog_toJSON <$> l)) →
  JSON_stringify (JArr (Blog_toJSON <$> l)) ≠ ""%string →
  Forall (λ b, date_round_trips (createdDate b) ∧ date_round_trips (updatedDate b)) l →
  BlogManager_new page
    = Ok ((), mkWorld l (localStorage page) (2 * length l + ticks page)).
Proof.
  intros Hstore Hjson Htext Hdates.
  unfold BlogManager_new.
  erewrite bind_Ok by reflexivity.
  unfold loadFromLocalStorage.
  erewrite bind_Ok by reflexivity.
  cbn [localStorage set_blogs]. rewrite Hstore.
  rewrite decide_False by done. rewrite Hjson.
  by erewrite bind_Ok by (by apply mapM_Blog_fromJSON).
Qed.

(** C2.  Let the store be written by [saveToLocalStorage], and let a
    manager then be made on a page with that store.  If the platform
    reads back the text it wrote, for the array and for each date in it,
    the new manager holds the entries that were saved: as many, in the
    same order, each with the [id], [title], [content], [tags],
    [createdDate] and [updatedDate] it had, the dates to the
    millisecond. *)
Theorem restore_after_persist (w : World) :
  JSON_parse (JSON_stringify (JArr (Blog_toJSON <$> blogs w)))
    = Some (JArr (Blog_toJSON <$> blogs w)) →
  JSON_stringify (JArr (Blog_toJSON <$> blogs w)) ≠ ""%string →
  Forall (λ b, date_round_trips (createdDate b) ∧ date_round_trips (updatedDate b))
         (blogs w) →
  ∃ w1, saveToLocalStorage w = Ok ((), w1) ∧
        ∀ page, localStorage page = localStorage w1 →
                ∃ page', BlogManager_new page = Ok ((), page') ∧
                         blogs page' = blogs w.
Proof.
  intros Hjson Htext Hdates. eexists. split; [done|].
  intros page Hpage. cbn [localStorage set_localStorage] in Hpage.
  rewrite (BlogManager_new_restores (blogs w) page); [by eexists| |done..].
  by rewrite Hpage, lookup_insert_eq.
Qed.

(** So a manager starts in order on a page whose store was written from
    an array in order; with [BlogManager_new_empty], the arrays of a
    manager are in order from its construction on, as long as the store
    is written by this script alone. *)
Lemma BlogManager_new_sorted l page :
  localStorage page !! "blogs"%string
    = Some (JSON_stringify (JArr (Blog_toJSON <$> l))) →
  JSON_parse (JSON_stringify (JArr (Blog_toJSON <$> l)))
    = Some (JArr (Blog_toJSON <$> l)) →
  JSON_stringify (JArr (Blog_toJSON <$> l)) ≠ ""%string →
  Forall (λ b, date_round_trips (createdDate b) ∧ date_round_trips (updatedDate b)) l →
  sorted_newest_first l →
  ∃ page', BlogManager_new page = Ok ((), page') ∧ sorted_newest_first (blogs page').
Proof.
  intros Hstore Hjson Htext Hdates Hl.
  rewrite (BlogManager_new_restores l page) by done. by eexists.
Qed.
End store.

(** ** Dates and ids *)

Section clock_facts.
Context `{P : Platform}.

Lemma clock_mono n m : clock_never_back → (n ≤ m)%nat → clock n ≤ clock m.
Proof.
  intros Hc. induction 1 as [|m Hnm IH]; [done|].
  etrans; [exact IH|apply Hc].
Qed.

Lemma Blog_new_spec i t c tg w :
  Blog_new i t c tg w =
    Ok (mkBlog i t c tg (clock (ticks w)) (clock (S (ticks w))),
        set_ticks (S (S (ticks w))) w).
Proof. done. Qed.

Lemma Blog_update_spec b t c tg w :
  Blog_update b t c tg w =
    Ok (mkBlog (id b) t c tg (createdDate b) (clock (ticks w)),
        set_ticks (S (ticks w)) w).
Proof. done. Qed.

Lemma dated_later l n m :
  clock_never_back → (n ≤ m)%nat →
  Forall (λ b, dates_in_order b ∧ createdDate b ≤ clock n) l →
  Forall (λ b, dates_in_order b ∧ createdDate b ≤ clock m) l.
Proof.
  intros Hc Hnm Hl. eapply Forall_impl; [exact Hl|].
  intros b [? ?]. split; [done|].
  etrans; [eassumption|by apply clock_mono].
Qed.

Lemma perform_dated k w w' :
  clock_never_back → perform k w = Ok ((), w') → dated w → dated w'.
Proof.
  intros Hc. unfold dated. destruct k as [t c tg|i t c tg|i]; simpl.
  - erewrite bind_Ok by apply addBlog_spec. intros [= <-] Hw. simpl.
    rewrite Array_sort_perm. apply Forall_app. split.
    + eapply dated_later; [done| |exact Hw]. lia.
    + apply Forall_singleton. unfold dates_in_order. simpl. split.
      * apply Hc.
      * apply clock_mono; [done|lia].
  - destruct (findBlog i (blogs w)) as [[slot blog]|] eqn:Hf.
    + erewrite bind_Ok by (by apply updateBlog_found).
      pose proof Hf as (l1 & l2 & Hl & Hlen & _)%findBlog_Some.
      intros [= <-] Hw. simpl.
      rewrite Array_sort_perm, Hl, <- Hlen.
      rewrite (insert_app_r_alt _ _ (length l1)), Nat.sub_diag by lia. simpl.
      rewrite Hl in Hw.
      apply Forall_app in Hw as [H1 [[Hb1 Hb2] H2]%Forall_cons].
      apply Forall_app. split; [eapply dated_later; [done| |exact H1]; lia|].
      apply Forall_cons. split; [|eapply dated_later; [done| |exact H2]; lia].
      unfold dates_in_order. simpl. split; [done|].
      etrans; [exact Hb2|apply Hc].
    + erewrite bind_Ok by (by apply updateBlog_missing). by intros [= <-].
  - rewrite deleteBlog_spec. intros [= <-] Hw. simpl.
    apply Forall_forall. intros b [_ Hb]%list_elem_of_filter.
    by eapply Forall_forall in Hw.
Qed.

(** C7, as the code has it.  The constructor reads the clock twice, first
    for [createdDate] and then for [updatedDate], and [update] reads it
    once, for [updatedDate], and leaves [createdDate] as it is.  So with
    a clock that is never set back, [updatedDate] is not before
    [createdDate] in any entry of any collection reached by calls of the
    manager from one whose entries have their dates in order and were
    not created in the future, as from the empty one. *)
Theorem updated_not_before_created (ks : list call) (w : World) :
  clock_never_back →
  dated w →
  (∀ i t c tg w0, ∃ b w1, Blog_new i t c tg w0 = Ok (b, w1) ∧
      createdDate b = clock (ticks w0) ∧ updatedDate b = clock (S (ticks w0))) ∧
  (∀ b t c tg w0, ∃ b' w1, Blog_update b t c tg w0 = Ok (b', w1) ∧
      createdDate b' = createdDate b ∧ updatedDate b' = clock (ticks w0)) ∧
  ∃ ws, trace ks w = Ok ws ∧
        Forall (λ w', Forall dates_in_order (blogs w')) ws.
Proof.
  intros Hc Hw. split_and!.
  - intros. rewrite Blog_new_spec. by eexists _, _.
  - intros. rewrite Blog_update_spec. by eexists _, _.
  - revert w Hw. induction ks as [|k ks IH]; intros w Hw; simpl.
    + by exists [].
    + destruct (perform_Ok k w) as [w' Hk]. rewrite Hk.
      pose proof (perform_dated _ _ _ Hc Hk Hw) as Hw'.
      destruct (IH w' Hw') as (ws & -> & Hall).
      eexists. split; [done|]. constructor; [|done].
      eapply Forall_impl; [exact Hw'|]. by intros b [? _].
Qed.
End clock_facts.

Section id_facts.
Context `{P : Platform}.

Lemma addBlogs_spec posts w :
  ∃ bs w', addBlogs posts w = Ok (bs, w') ∧
           ticks w' = (ticks w + 3 * length posts)%nat ∧
           blogs w' ≡ₚ blogs w ++ bs ∧
           length bs = length posts ∧
           ∀ k b, bs !! k = Some b → id b = clock (ticks w + 3 * k).
Proof.
  unfold addBlogs. revert w.
  induction posts as [|[[t c] tg] posts IH]; intros w.
  - exists [], w. split_and!; [done|simpl; lia|by rewrite app_nil_r|done|done].
  - cbn [mapM]. erewrite bind_Ok by apply addBlog_spec. cbn [fst snd].
    match goal with |- context [ mbind _ _ ?w1 ] =>
      destruct (IH w1) as (bs & w' & Hrun & Hticks & Hperm & Hlen & Hids)
    end.
    erewrite bind_Ok by exact Hrun.
    eexists _, w'. split; [done|]. cbn [ticks blogs] in *. split_and!.
    + simpl. lia.
    + rewrite Hperm, Array_sort_perm. by rewrite <- app_assoc.
    + simpl. by f_equal.
    + intros [|k] b; simpl.
      * intros [= <-]. simpl. f_equal. lia.
      * intros Hb. rewrite (Hids k b Hb). f_equal. lia.
Qed.

(** C8, as the code has it.  The id of an entry is what [Date.now()]
    returns when [addBlog] makes it, an integer: the first of the three
    readings of the clock that the call takes.  Nothing else guards the
    ids, so what is true of them is what is true of the clock.  With a
    clock that is never set back, the ids of the entries made by a
    sequence of [addBlog] calls do not decrease in the order of
    creation; two of them are equal only if the clock stood still all
    the time from the making of the one to the making of the other; and
    if the clock moved at any reading between the two, the later id is
    the greater.  The collection after the calls is the one before them
    and the entries made, and when the ids it held were all earlier than
    the time of the first call, no new id is one of them. *)
Theorem ids_from_the_clock (posts : list (string * string * list string)) (w : World) :
  clock_never_back →
  ∃ bs w', addBlogs posts w = Ok (bs, w') ∧
           blogs w' ≡ₚ blogs w ++ bs ∧
           length bs = length posts ∧
           (∀ k b, bs !! k = Some b → id b = clock (ticks w + 3 * k)) ∧
           (∀ j k bj bk, (j < k)%nat → bs !! j = Some bj → bs !! k = Some bk →
              id bj ≤ id bk ∧
              (id bj = id bk →
               ∀ n, (ticks w + 3 * j ≤ n ≤ ticks w + 3 * k)%nat → clock n = id bj) ∧
              ((∃ n, (ticks w + 3 * j ≤ n < ticks w + 3 * k)%nat ∧ clock n < clock (S n)) →
               id bj < id bk)) ∧
           (Forall (λ b0, id b0 < clock (ticks w)) (blogs w) →
            Forall (λ b, id b ∉ id <$> blogs w) bs).
Proof.
  intros Hc.
  destruct (addBlogs_spec posts w) as (bs & w' & Hrun & _ & Hperm & Hlen & Hids).
  exists bs, w'. split_and!; try done.
  - intros j k bj bk Hjk Hj Hk.
    rewrite (Hids _ _ Hj), (Hids _ _ Hk). split_and!.
    + apply clock_mono; [done|lia].
    + intros Heq n [Hjn Hnk].
      pose proof (clock_mono _ _ Hc Hjn). pose proof (clock_mono _ _ Hc Hnk). lia.
    + intros (n & [Hjn Hnk] & Hn).
      pose proof (clock_mono _ _ Hc Hjn).
      pose proof (clock_mono (S n) (ticks w + 3 * k) Hc). lia.
  - intros Hold. apply Forall_forall. intros b Hb Hin.
    apply list_elem_of_lookup in Hb as [k Hk].
    apply list_elem_of_fmap in Hin as (b0 & Hid & Hb0).
    rewrite Forall_forall in Hold. specialize (Hold b0 Hb0).
    rewrite (Hids _ _ Hk) in Hid.
    pose proof (clock_mono (ticks w) (ticks w + 3 * k) Hc). lia.
Qed.

(** When the clock has moved on between any two readings, the ids made
    by a sequence of [addBlog] calls are all different. *)
Lemma ids_distinct posts w bs w' :
  (∀ n, clock n < clock (S n)) →
  addBlogs posts w = Ok (bs, w') → NoDup (id <$> bs).
Proof.
  intros Hadv Hrun.
  assert (∀ n m, (n < m)%nat → clock n < clock m) as Hlt.
  { intros n m. induction 1 as [|m Hnm IH]; [apply Hadv|].
    etrans; [exact IH|apply Hadv]. }
  destruct (addBlogs_spec posts w) as (bs0 & w0 & Hrun0 & _ & _ & _ & Hids).
  rewrite Hrun in Hrun0. injection Hrun0 as <- <-.
  apply NoDup_alt. intros j k x Hj Hk.
  rewrite list_lookup_fmap in Hj, Hk.
  destruct (bs !! j) as [bj|] eqn:Ej; [|done].
  destruct (bs !! k) as [bk|] eqn:Ek; [|done].
  simpl in Hj, Hk. injection Hj as Hj. injection Hk as Hk.
  rewrite (Hids _ _ Ej) in Hj. rewrite (Hids _ _ Ek) in Hk.
  destruct (Nat.lt_total j k) as [Hjk|[->|Hjk]]; [|done|].
  - pose proof (Hlt (ticks w + 3 * j)%nat (ticks w + 3 * k)%nat). lia.
  - pose proof (Hlt (ticks w + 3 * k)%nat (ticks w + 3 * j)%nat). lia.
Qed.
End id_facts.

(** ** The script on sample data *)

Lemma ticking_never_back : @clock_never_back Sample.ticking.
Proof. intros n. unfold clock, Sample.ticking, Browser.platform, Browser.paced_clock. lia. Defined.

Lemma standing_never_back : @clock_never_back Sample.standing.
Proof. intros n. unfold clock, Sample.standing, Browser.platform, Browser.paced_clock. lia. Defined.

Lemma page_sorted : sorted_newest_first (blogs Sample.page).
Proof. repeat constructor. unfold newer_first. simpl. lia. Defined.

Lemma page_dated : @dated Sample.ticking Sample.page.
Proof.
  unfold dated, dates_in_order. cbn [blogs ticks Sample.page].
  repeat (apply Forall_cons; split; [vm_compute; split; discriminate|]).
  apply Forall_nil_2.
Defined.

Lemma sorted_after_every_call_witness :
  sorted_newest_first (blogs Sample.page) ∧
  ∃ ws, @trace Sample.ticking Sample.calls Sample.page = Ok ws ∧
        length ws = length Sample.calls ∧
        Forall (λ w', sorted_newest_first (blogs w')) ws.
Proof.
  split; [exact page_sorted|].
  apply (@sorted_after_every_call Sample.ticking Sample.calls Sample.page).
  exact page_sorted.
Defined.

Lemma page_has_no_42 : Forall (λ b, id b ≠ 42) (blogs Sample.page).
Proof. repeat (apply Forall_cons; split; [discriminate|]). apply Forall_nil_2. Defined.

Lemma restore_after_persist_witness :
  @JSON_parse Sample.ticking
    (@JSON_stringify Sample.ticking
       (JArr (@Blog_toJSON Sample.ticking <$> blogs Sample.page)))
    = Some (JArr (@Blog_toJSON Sample.ticking <$> blogs Sample.page)) ∧
  @JSON_stringify Sample.ticking
    (JArr (@Blog_toJSON Sample.ticking <$> blogs Sample.page)) ≠ ""%string ∧
  Forall (λ b, @date_round_trips Sample.ticking (createdDate b) ∧
               @date_round_trips Sample.ticking (updatedDate b))
         (blogs Sample.page) ∧
  ∃ w1, @saveToLocalStorage Sample.ticking Sample.page = Ok ((), w1) ∧
        ∀ page, localStorage page = localStorage w1 →
                ∃ page', @BlogManager_new Sample.ticking page = Ok ((), page') ∧
                         blogs page' = blogs Sample.page.
Proof.
  assert (@JSON_parse Sample.ticking
            (@JSON_stringify Sample.ticking
               (JArr (@Blog_toJSON Sample.ticking <$> blogs Sample.page)))
          = Some (JArr (@Blog_toJSON Sample.ticking <$> blogs Sample.page))) as Hjson
    by (vm_compute; reflexivity).
  assert (@JSON_stringify Sample.ticking
            (JArr (@Blog_toJSON Sample.ticking <$> blogs Sample.page)) ≠ ""%string)
    as Htext by (vm_compute; discriminate).
  assert (Forall (λ b, @date_round_trips Sample.ticking (createdDate b) ∧
                       @date_round_trips Sample.ticking (updatedDate b))
                 (blogs Sample.page)) as Hdates.
  { repeat (apply Forall_cons; split; [split; vm_compute; reflexivity|]).
    apply Forall_nil_2. }
  split_and!; [exact Hjson|exact Htext|exact Hdates|].
  exact (@restore_after_persist Sample.ticking Sample.page Hjson Htext Hdates).
Defined.

Lemma updateBlog_unknown_id_witness :
  Forall (λ b, id b ≠ 42) (blogs Sample.page) ∧
  @updateBlog Sample.ticking 42 "none" "none" [] Sample.page = Ok (None, Sample.page).
Proof.
  split; [exact page_has_no_42|].
  exact (@updateBlog_unknown_id Sample.ticking Sample.page 42 "none" "none" []
           page_has_no_42).
Defined.

Lemma deleteBlog_unknown_id_witness :
  Forall (λ b, id b ≠ 42) (blogs Sample.page) ∧
  ∃ w', @deleteBlog Sample.ticking 42 Sample.page = Ok ((), w') ∧
        blogs w' = blogs Sample.page ∧
        localStorage w' =
          <["blogs"%string :=
              @JSON_stringify Sample.ticking
                (JArr (@Blog_toJSON Sample.ticking <$> blogs Sample.page))]>
            (localStorage Sample.page).
Proof.
  split; [exact page_has_no_42|].
  exact (@deleteBlog_unknown_id Sample.ticking Sample.page 42 page_has_no_42).
Defined.

Lemma updated_not_before_created_witness :
  @clock_never_back Sample.ticking ∧ @dated Sample.ticking Sample.page ∧
  (∀ i t c tg w0, ∃ b w1, @Blog_new Sample.ticking i t c tg w0 = Ok (b, w1) ∧
      createdDate b = @clock Sample.ticking (ticks w0) ∧
      updatedDate b = @clock Sample.ticking (S (ticks w0))) ∧
  (∀ b t c tg w0, ∃ b' w1, @Blog_update Sample.ticking b t c tg w0 = Ok (b', w1) ∧
      createdDate b' = createdDate b ∧
      updatedDate b' = @clock Sample.ticking (ticks w0)) ∧
  ∃ ws, @trace Sample.ticking Sample.calls Sample.page = Ok ws ∧
        Forall (λ w', Forall dates_in_order (blogs w')) ws.
Proof.
  split_and!; [exact ticking_never_back|exact page_dated|..];
    apply (@updated_not_before_created Sample.ticking Sample.calls Sample.page
             ticking_never_back page_dated).
Defined.

Lemma page_ids_before_now :
  Forall (λ b0, id b0 < @clock Sample.ticking (ticks Sample.page)) (blogs Sample.page).
Proof. repeat (apply Forall_cons; split; [by vm_compute|]). apply Forall_nil_2. Defined.

Lemma ids_from_the_clock_witness :
  @clock_never_back Sample.ticking ∧
  Forall (λ b0, id b0 < @clock Sample.ticking (ticks Sample.page)) (blogs Sample.page) ∧
  ∃ bs w', @addBlogs Sample.ticking Sample.posts Sample.page = Ok (bs, w') ∧
           blogs w' ≡ₚ blogs Sample.page ++ bs ∧
           length bs = length Sample.posts ∧
           (∀ k b, bs !! k = Some b →
              id b = @clock Sample.ticking (ticks Sample.page + 3 * k)) ∧
           (∀ j k bj bk, (j < k)%nat → bs !! j = Some bj → bs !! k = Some bk →
              id bj ≤ id bk ∧
              (id bj = id bk →
               ∀ n, (ticks Sample.page + 3 * j ≤ n ≤ ticks Sample.page + 3 * k)%nat →
                    @clock Sample.ticking n = id bj) ∧
              ((∃ n, (ticks Sample.page + 3 * j ≤ n < ticks Sample.page + 3 * k)%nat ∧
                     @clock Sample.ticking n < @clock Sample.ticking (S n)) →
               id bj < id bk)) ∧
           (Forall (λ b0, id b0 < @clock Sample.ticking (ticks Sample.page))
                   (blogs Sample.page) →
            Forall (λ b, id b ∉ id <$> blogs Sample.page) bs).
Proof.
  split_and!; [exact ticking_never_back|exact page_ids_before_now|].
  exact (@ids_from_the_clock Sample.ticking Sample.posts Sample.page
           ticking_never_back).
Defined.

Lemma older_first_of_its_id : Forall (λ x, id x ≠ id Sample.older) [Sample.newer].
Proof. apply Forall_cons. split; [discriminate|apply Forall_nil_2]. Defined.

Lemma updateBlog_frame_witness :
  blogs Sample.page = [Sample.newer] ++ Sample.older :: [] ∧
  Forall (λ x, id x ≠ id Sample.older) [Sample.newer] ∧
  ∃ b' w',
    @updateBlog Sample.ticking (id Sample.older) "A2" "body2" [] Sample.page
      = Ok (Some b', w') ∧
    title b' = "A2"%string ∧ content b' = "body2"%string ∧ tags b' = [] ∧
    updatedDate b' = @clock Sample.ticking (ticks Sample.page) ∧
    id b' = id Sample.older ∧ createdDate b' = createdDate Sample.older ∧
    blogs w' ≡ₚ [Sample.newer] ++ b' :: [].
Proof.
  split_and!; [reflexivity|exact older_first_of_its_id|].
  exact (@updateBlog_frame Sample.ticking Sample.page "A2" "body2" []
           [Sample.newer] [] Sample.older eq_refl older_first_of_its_id).
Defined.

(** The constructor does not set the two dates of an entry to one time.
    On a browser whose clock moves between the two readings the entry is
    made with an [updatedDate] later than its [createdDate]; on one whose
    clock is set back between them, with an [updatedDate] earlier than
    its [createdDate]. *)
Lemma constructed_dates_differ :
  ¬ (∀ b w', @addBlog Sample.ticking "A" "body1" ["x"%string] Sample.fresh = Ok (b, w') →
             createdDate b = updatedDate b) ∧
  ¬ (∀ b w', @addBlog Sample.set_back "A" "body1" ["x"%string] Sample.fresh = Ok (b, w') →
             createdDate b ≤ updatedDate b).
Proof.
  split; intros H; specialize (H _ _ eq_refl); vm_compute in H.
  - discriminate.
  - by apply H.
Qed.

(** The ids are as good as the clock.  On a browser whose clock is set
    back between two calls the second post gets the smaller id; on one
    whose clock stands still the two posts get one id, and it is not
    new for the second. *)
Lemma ids_follow_the_clock_back :
  ¬ (∀ bs w' j k bj bk,
       @addBlogs Sample.set_back Sample.posts Sample.fresh = Ok (bs, w') →
       (j < k)%nat → bs !! j = Some bj → bs !! k = Some bk → id bj ≤ id bk) ∧
  ¬ (∀ bs w', @addBlogs Sample.standing Sample.posts Sample.fresh = Ok (bs, w') →
              NoDup (id <$> bs)).
Proof.
  split; intros H.
  - specialize (H _ _ 0%nat 1%nat _ _ eq_refl ltac:(lia) eq_refl eq_refl).
    vm_compute in H. by apply H.
  - specialize (H _ _ eq_refl). vm_compute in H.
    apply NoDup_cons in H as [H _]. apply H. left.
Qed.

(** [updateBlog] does not reach every entry.  Of two posts made in the
    same instant, which share their id, a call with that id meant for
    the second writes the first: the second is left as it was, with its
    title, and the first is gone. *)
Lemma update_misses_the_twin :
  ∃ a b w,
    @addBlogs Sample.standing Sample.posts Sample.fresh = Ok ([a; b], w) ∧
    blogs w = [a; b] ∧ a ≠ b ∧
    ¬ (∀ b' w', @updateBlog Sample.standing (id b) "B2" "body3" ["z"%string] w
                  = Ok (Some b', w') →
                a ∈ blogs w' ∧ b ∉ blogs w') ∧
    ∃ b' w', @updateBlog Sample.standing (id b) "B2" "body3" ["z"%string] w
               = Ok (Some b', w') ∧
             blogs w' = [b'; b] ∧ title b' = "B2"%string.
Proof.
  eexists _, _, _. split_and!.
  - vm_compute. reflexivity.
  - vm_compute. reflexivity.
  - vm_compute. discriminate.
  - intros H. specialize (H _ _ eq_refl) as [_ H]. apply H.
    vm_compute. right. left.
  - eexists _, _. split_and!.
    all: [> vm_compute; reflexivity ..].
Qed.

(** Two posts, the second sharing a tag with the first. *)
Example two_posts_tags :
  ∃ a b w, @addBlogs Sample.ticking Sample.posts Sample.fresh = Ok ([a; b], w) ∧
           blogs w = [b; a] ∧
           getAllTags w = Ok (["x"; "y"]%string, w) ∧
           filterByTag (Some "y"%string) w = Ok ([b], w) ∧
           filterByTag (Some ""%string) w = Ok ([b; a], w).
Proof.
  eexists _, _, _. split_and!.
  all: [> vm_compute; reflexivity ..].
Qed.

(** One post, then an edit of it. *)
Example post_then_edit :
  ∃ e w e' w',
    @addBlog Sample.ticking "A" "body1" ["x"%string] Sample.fresh = Ok (e, w) ∧
    @updateBlog Sample.ticking (id e) "A2" "body2" [] w = Ok (Some e', w') ∧
    blogs w' = [e'] ∧ title e' = "A2"%string ∧
    createdDate e' = createdDate e ∧ createdDate e' < updatedDate e'.
Proof.
  eexists _, _, _, _. split_and!.
  all: [> vm_compute; reflexivity ..].
Qed.

(** On a clock that stands still two posts get one id; [getBlog] then
    finds the one in front, and [deleteBlog] takes both. *)
Example same_instant_same_id :
  ∃ a b w w',
    @addBlogs Sample.standing Sample.posts Sample.fresh = Ok ([a; b], w) ∧
    id a = id b ∧ a ≠ b ∧ blogs w = [a; b] ∧
    getBlog (id a) w = Ok (Some a, w) ∧
    @deleteBlog Sample.standing (id a) w = Ok ((), w') ∧ blogs w' = [].
Proof.
  eexists _, _, _, _. split_and!.
  all: [> first [vm_compute; reflexivity|vm_compute; discriminate] ..].
Qed.

(** The text in the store after the sample calls, and the manager made
    from it on the next visit. *)
Example store_after_calls :
  ∃ ws w page',
    @trace Sample.ticking Sample.calls Sample.page = Ok ws ∧ last ws = Some w ∧
    localStorage w !! "blogs"%string =
      Some ("[{" +:+ String Browser.quote "id" +:+ String Browser.quote ":1699999990000,"
            +:+ String Browser.quote "title" +:+ String Browser.quote ":"
            +:+ String Browser.quote "A2" +:+ String Browser.quote ","
            +:+ String Browser.quote "content" +:+ String Browser.quote ":"
            +:+ String Browser.quote "body2" +:+ String Browser.quote ","
            +:+ String Browser.quote "tags" +:+ String Browser.quote ":[],"
            +:+ String Browser.quote "createdDate" +:+ String Browser.quote ":"
            +:+ String Browser.quote "2023-11-14T22:13:10.000Z" +:+ String Browser.quote ","
            +:+ String Browser.quote "updatedDate" +:+ String Browser.quote ":"
            +:+ String Browser.quote "2023-11-14T22:13:20.003Z" +:+ String Browser.quote "},{"
            +:+ String Browser.quote "id" +:+ String Browser.quote ":1700000000000,"
            +:+ String Browser.quote "title" +:+ String Browser.quote ":"
            +:+ String Browser.quote "C" +:+ String Browser.quote ","
            +:+ String Browser.quote "content" +:+ String Browser.quote ":"
            +:+ String Browser.quote "body3" +:+ String Browser.quote ","
            +:+ String Browser.quote "tags" +:+ String Browser.quote ":["
            +:+ String Browser.quote "z" +:+ String Browser.quote ","
            +:+ String Browser.quote "y" +:+ String Browser.quote "],"
            +:+ String Browser.quote "createdDate" +:+ String Browser.quote ":"
            +:+ String Browser.quote "2023-11-14T22:13:20.001Z" +:+ String Browser.quote ","
            +:+ String Browser.quote "updatedDate" +:+ String Browser.quote ":"
            +:+ String Browser.quote "2023-11-14T22:13:20.002Z" +:+ String Browser.quote "}]") ∧
    @BlogManager_new Sample.ticking (mkWorld [] (localStorage w) 0) = Ok ((), page') ∧
    blogs page' = blogs w.
Proof.
  eexists _, _, _. split_and!.
  all: [> vm_compute; reflexivity ..].
Qed.

(** * The form and the page *)

(** ** Strings *)

Section string_facts.
Import Unicode.

Lemma app_String c r s : String c r +:+ s = String c (r +:+ s).
Proof. done. Qed.

Lemma app_Empty s : EmptyString +:+ s = s.
Proof. done. Qed.

Lemma app_Empty_r s : s +:+ EmptyString = s.
Proof. induction s as [|c s IH]; [done|]. by rewrite app_String, IH. Qed.

Lemma app_assoc_s s1 s2 s3 : (s1 +:+ s2) +:+ s3 = s1 +:+ (s2 +:+ s3).
Proof. induction s1 as [|c s1 IH]; [done|]. by rewrite !app_String, IH. Qed.

Lemma chars_app s1 s2 : JS.chars (s1 +:+ s2) = JS.chars s1 ++ JS.chars s2.
Proof.
  induction s1 as [|c r IH]; [done|].
  rewrite app_String. unfold JS.chars in *. simpl. by rewrite IH.
Qed.

Lemma chars_String c r : JS.chars (String c r) = c :: JS.chars r.
Proof. done. Qed.

Lemma chars_nil s : JS.chars s = [] ↔ s = EmptyString.
Proof. by destruct s. Qed.

(** *** The characters of a text *)

Lemma code_points_ascii c s :
  byte c < 0x80 → code_points (String c s) = byte c :: code_points s.
Proof. intros Hc. by rewrite code_points_front, front_ascii. Qed.

Lemma code_points_app_ascii s1 c s2 :
  byte c < 0x80 →
  code_points (s1 +:+ String c s2) = code_points s1 ++ byte c :: code_points s2.
Proof.
  intros Hc. induction s1 as [|s p r Hf IH] using front_ind.
  - by rewrite app_Empty, code_points_ascii.
  - rewrite (code_points_front s), Hf.
    rewrite code_points_front, (front_app_ascii _ _ _ _ _ Hf Hc). by rewrite IH.
Qed.

(** A character below [0x80] among those of a text is a byte of it. *)
Lemma code_points_low s p :
  p ∈ code_points s → p < 0x80 → ∃ a, a ∈ JS.chars s ∧ byte a = p.
Proof.
  intros Hp Hlow. induction s as [|s q r Hf IH] using front_ind.
  - by apply elem_of_nil in Hp.
  - rewrite code_points_front, Hf in Hp.
    destruct (front_rest _ _ _ Hf) as (a & bytes & Hs).
    apply elem_of_cons in Hp as [->|Hp].
    + destruct (front_low _ _ _ Hf Hlow) as (a' & -> & Ha'). exists a'.
      split; [|done]. rewrite chars_String. left.
    + destruct (IH Hp) as (a' & Ha' & Hb). exists a'. split; [|done].
      rewrite Hs, chars_app. apply elem_of_app. by right.
Qed.

(** White space is read the same whatever follows it. *)
Lemma front_app_white s p r y :
  front s = Some (p, r) → JS.is_white p →
  front (s +:+ y) = Some (p, r +:+ y).
Proof.
  intros Hf Hp. unfold JS.is_white in Hp. apply bool_decide_unpack in Hp.
  destruct s as [|a [|b [|e [|d s]]]]; [done|..]; simpl in *.
  - destruct y as [|y1 [|y2 [|y3 y]]]; simpl; by_ranges.
  - destruct y as [|y1 [|y2 y]]; simpl; by_ranges.
  - destruct y as [|y1 y]; simpl; by_ranges.
  - by_ranges.
Qed.

(** *** [trim] *)

Lemma blank_front s :
  JS.blank s ↔
    match front s with
    | Some (p, r) => JS.is_white p ∧ JS.blank r
    | None => True
    end.
Proof.
  unfold JS.blank. rewrite code_points_front.
  destruct (front s) as [[p r]|]; [by rewrite Forall_cons|].
  split; [done|constructor].
Qed.

Lemma blank_Empty : JS.blank EmptyString.
Proof. constructor. Qed.

Lemma blank_app x y : JS.blank x → JS.blank (x +:+ y) ↔ JS.blank y.
Proof.
  induction x as [|s p r Hf IH] using front_ind; [done|].
  rewrite (blank_front s), Hf. intros [Hp Hr].
  rewrite (blank_front (s +:+ y)), (front_app_white _ _ _ _ Hf Hp).
  rewrite (IH Hr). tauto.
Qed.

Lemma trimStart_upto_any n m s :
  (String.length s ≤ n)%nat → (String.length s ≤ m)%nat →
  JS.trimStart_upto n s = JS.trimStart_upto m s.
Proof.
  revert m s. induction n as [|n IH]; intros m s Hn Hm.
  - destruct s; [by destruct m|simpl in Hn; lia].
  - destruct m as [|m]; [destruct s; [done|simpl in Hm; lia]|].
    cbn [JS.trimStart_upto]. destruct (front s) as [[p r]|] eqn:Hf; [|done].
    pose proof (front_shorter _ _ _ Hf) as Hr.
    destruct (JS.is_white p); [|done]. apply IH; lia.
Qed.

Lemma trimStart_front s :
  JS.trimStart s =
    match front s with
    | Some (p, r) => if JS.is_white p then JS.trimStart r else s
    | None => s
    end.
Proof.
  destruct s as [|a s']; [done|].
  unfold JS.trimStart at 1.
  change (String.length (String a s')) with (S (String.length s')).
  cbn [JS.trimStart_upto]. destruct (front (String a s')) as [[p r]|] eqn:Hf; [|done].
  pose proof (front_shorter _ _ _ Hf) as Hr. simpl in Hr.
  destruct (JS.is_white p); [|done]. apply trimStart_upto_any; lia.
Qed.

(** [trimStart] takes bytes from the front. *)
Lemma trimStart_rest s : ∃ gone, s = gone +:+ JS.trimStart s.
Proof.
  induction s as [|s p r Hf (gone & Hr)] using front_ind.
  - by exists EmptyString.
  - rewrite trimStart_front, Hf. destruct (JS.is_white p) eqn:Hp.
    + destruct (front_rest _ _ _ Hf) as (a & bytes & Hs).
      exists (String a bytes +:+ gone). by rewrite app_assoc_s, <- Hr.
    + by exists EmptyString.
Qed.

Lemma blank_trimStart s : JS.blank (JS.trimStart s) ↔ JS.blank s.
Proof.
  induction s as [|s p r Hf IH] using front_ind; [done|].
  rewrite trimStart_front, Hf. destruct (JS.is_white p) eqn:Hp; [|done].
  rewrite IH, (blank_front s), Hf, Hp. simpl. tauto.
Qed.

(** What [trimStart] leaves does not begin with white space. *)
Lemma trimStart_head s :
  match front (JS.trimStart s) with
  | Some (p, _) => ¬ JS.is_white p
  | None => True
  end.
Proof.
  induction s as [|s p r Hf IH] using front_ind; [done|].
  rewrite trimStart_front, Hf. destruct (JS.is_white p) eqn:Hp; [done|].
  rewrite Hf, Hp. simpl. tauto.
Qed.

Lemma trimStart_fixed s :
  match front s with
  | Some (p, _) => ¬ JS.is_white p
  | None => True
  end → JS.trimStart s = s.
Proof.
  rewrite trimStart_front. destruct (front s) as [[p r]|]; [|done].
  by destruct (JS.is_white p).
Qed.

Lemma trimEnd_String c r :
  JS.trimEnd (String c r) =
    if decide (JS.blank (String c r)) then EmptyString else String c (JS.trimEnd r).
Proof. done. Qed.

Lemma trimEnd_Empty s : JS.trimEnd s = EmptyString ↔ JS.blank s.
Proof.
  destruct s as [|c r]; [by split; [intros; apply blank_Empty|]|].
  rewrite trimEnd_String. by case_decide.
Qed.

(** [trimEnd] takes bytes from the end, and they hold white space. *)
Lemma trimEnd_rest s : ∃ gone, s = JS.trimEnd s +:+ gone ∧ JS.blank gone.
Proof.
  induction s as [|c r (gone & Hr & Hgone)]; [exists EmptyString; split; [done|apply blank_Empty]|].
  rewrite trimEnd_String. case_decide as Hb.
  - by exists (String c r).
  - exists gone. by rewrite app_String, <- Hr.
Qed.

Lemma trimEnd_idem s : JS.trimEnd (JS.trimEnd s) = JS.trimEnd s.
Proof.
  induction s as [|c r IH]; [done|]. rewrite trimEnd_String.
  case_decide as Hb; [done|].
  rewrite trimEnd_String, IH, decide_False; [done|].
  intros Hb'. apply Hb.
  destruct (trimEnd_rest r) as (gone & Hr & Hgone).
  rewrite Hr, <- app_String. by apply blank_app.
Qed.

Lemma trimEnd_head s :
  match front s with
  | Some (p, _) => ¬ JS.is_white p
  | None => True
  end →
  match front (JS.trimEnd s) with
  | Some (p, _) => ¬ JS.is_white p
  | None => True
  end.
Proof.
  intros Hs. destruct (trimEnd_rest s) as (gone & Hr & _).
  destruct (front (JS.trimEnd s)) as [[p r]|] eqn:Hf; [|done].
  intros Hp. rewrite Hr, (front_app_white _ _ _ _ Hf Hp) in Hs. done.
Qed.

Lemma trim_Empty s : JS.trim s = EmptyString ↔ JS.blank s.
Proof. unfold JS.trim. by rewrite trimEnd_Empty, blank_trimStart. Qed.

Lemma trim_idem s : JS.trim (JS.trim s) = JS.trim s.
Proof.
  unfold JS.trim.
  rewrite (trimStart_fixed (JS.trimEnd (JS.trimStart s))).
  - apply trimEnd_idem.
  - apply trimEnd_head, trimStart_head.
Qed.

(** [trim] takes bytes from the two ends, and nothing else. *)
Lemma trim_chars s :
  ∃ front back, JS.chars s = front ++ JS.chars (JS.trim s) ++ back.
Proof.
  destruct (trimStart_rest s) as (gone & Hs).
  destruct (trimEnd_rest (JS.trimStart s)) as (back & He & _).
  exists (JS.chars gone), (JS.chars back). unfold JS.trim.
  by rewrite <- !chars_app, <- He, <- Hs.
Qed.

Lemma trim_keeps_out (c : ascii) s : c ∉ JS.chars s → c ∉ JS.chars (JS.trim s).
Proof.
  destruct (trim_chars s) as (front & back & ->).
  rewrite !elem_of_app. naive_solver.
Qed.

Lemma trim_skips_white c s :
  byte c < 0x80 → JS.is_white (byte c) → JS.trim (String c s) = JS.trim s.
Proof.
  intros Hc Hw. unfold JS.trim. rewrite (trimStart_front (String c s)).
  rewrite front_ascii by done. by destruct (JS.is_white (byte c)).
Qed.

End string_facts.

(** ** The tags of the form *)

Section tag_field.

Lemma split_not_nil sep s : JS.split sep s ≠ [].
Proof.
  destruct s as [|c r]; [done|]. simpl.
  case_decide; [done|]. by destruct (JS.split sep r).
Qed.

Lemma split_String sep c r :
  c ≠ sep →
  ∃ piece pieces, JS.split sep r = piece :: pieces ∧
                  JS.split sep (String c r) = String c piece :: pieces.
Proof.
  intros Hc. simpl. rewrite decide_False by done.
  destruct (JS.split sep r) as [|piece pieces] eqn:Hr; [by apply split_not_nil in Hr|].
  by exists piece, pieces.
Qed.

Lemma split_no_sep sep s : Forall (λ piece, sep ∉ JS.chars piece) (JS.split sep s).
Proof.
  induction s as [|c r IH].
  - repeat constructor. unfold JS.chars. simpl. apply not_elem_of_nil.
  - destruct (decide (c = sep)) as [->|Hc].
    + simpl. rewrite decide_True by done. constructor; [|done].
      unfold JS.chars. simpl. apply not_elem_of_nil.
    + destruct (split_String sep c r Hc) as (piece & pieces & Hr & ->).
      rewrite Hr in IH. apply Forall_cons in IH as [Hp Hps].
      constructor; [|done]. unfold JS.chars in *. simpl.
      rewrite not_elem_of_cons. by split.
Qed.

Lemma split_whole sep s : sep ∉ JS.chars s → JS.split sep s = [s].
Proof.
  induction s as [|c r IH]; [done|].
  unfold JS.chars in *. simpl. rewrite not_elem_of_cons. intros [Hc Hr].
  rewrite decide_False by done. by rewrite (IH Hr).
Qed.

Lemma split_app sep s1 s2 :
  JS.split sep (s1 +:+ String sep s2) = JS.split sep s1 ++ JS.split sep s2.
Proof.
  induction s1 as [|c r IH].
  - rewrite app_Empty. simpl. by rewrite decide_True.
  - rewrite app_String. destruct (decide (c = sep)) as [->|Hc].
    + simpl. rewrite !decide_True by done. by rewrite IH.
    + destruct (split_String sep c r Hc) as (piece & pieces & Hr & ->).
      destruct (split_String sep c (r +:+ String sep s2) Hc) as (p' & ps' & Hr' & ->).
      rewrite IH, Hr in Hr'. by simplify_eq/=.
Qed.

(** The pieces joined by the separator are the string. *)
Lemma join_split (sep : ascii) s :
  JS.join (String sep EmptyString) (JS.split sep s) = s.
Proof.
  unfold JS.join. induction s as [|c r IH]; [done|].
  destruct (decide (c = sep)) as [->|Hc].
  - simpl. rewrite decide_True by done.
    destruct (JS.split sep r) as [|piece pieces] eqn:Hr; [by apply split_not_nil in Hr|].
    change (String sep (String.concat (String sep EmptyString) (piece :: pieces))
              = String sep r).
    by rewrite IH.
  - destruct (split_String sep c r Hc) as (piece & pieces & Hr & ->).
    rewrite Hr in IH. destruct pieces as [|piece' pieces].
    + simpl in *. by rewrite IH.
    + change (String c (String.concat (String sep EmptyString) (piece :: piece' :: pieces))
                = String c r).
      by rewrite IH.
Qed.

Lemma comma_byte : Unicode.byte "," = 0x2C.
Proof. done. Qed.

(** No character of a text without the byte of the comma is a comma. *)
Lemma no_comma_point s :
  ","%char ∉ JS.chars s → 0x2C ∉ Unicode.code_points s.
Proof.
  intros Hs Hp. destruct (code_points_low s _ Hp) as (a & Ha & Hb); [lia|].
  rewrite <- comma_byte in Hb. by apply byte_inj in Hb as ->.
Qed.

(** The characters of a string are those of its pieces, and the commas
    between them. *)
Lemma points_of_pieces (R : Z → Prop) pieces :
  Forall (λ piece, ","%char ∉ JS.chars piece) pieces → pieces ≠ [] →
  Forall (λ piece, Forall R (Unicode.code_points piece)) pieces ↔
  Forall (λ p, R p ∨ p = 0x2C) (Unicode.code_points (JS.join "," pieces)).
Proof.
  induction 1 as [|x pieces Hx Hpieces IH]; [done|]. intros _.
  destruct pieces as [|y pieces].
  - rewrite Forall_singleton. unfold JS.join. simpl.
    apply no_comma_point in Hx. rewrite !Forall_forall. split.
    + intros HR p Hp. left. by apply HR.
    + intros HR p Hp. destruct (HR p Hp) as [?| ->]; done.
  - change (JS.join "," (x :: y :: pieces))
      with (x +:+ String "," (JS.join "," (y :: pieces))).
    rewrite code_points_app_ascii by done.
    rewrite (Forall_cons _ x), Forall_app, (Forall_cons _ (Unicode.byte ",")).
    rewrite <- IH by done.
    apply no_comma_point in Hx. rewrite !(Forall_forall _ (Unicode.code_points x)).
    split.
    + intros [HR ?]. split_and!; [|by right|done]. intros p Hp. left. by apply HR.
    + intros (HR & _ & ?). split; [|done].
      intros p Hp. destruct (HR p Hp) as [?| ->]; done.
Qed.

Lemma parseTags_piece s :
  ","%char ∉ JS.chars s →
  parseTags s = if decide (JS.trim s = EmptyString) then [] else [JS.trim s].
Proof.
  intros Hs. unfold parseTags. rewrite (split_whole _ _ Hs). simpl.
  rewrite filter_cons, filter_nil. by repeat case_decide.
Qed.

Lemma parseTags_white c s :
  Unicode.byte c < 0x80 → JS.is_white (Unicode.byte c) →
  parseTags (String c s) = parseTags s.
Proof.
  intros Hc Hw. unfold parseTags.
  assert (c ≠ ","%char) as Hne by (intros ->; by vm_compute in Hw).
  destruct (split_String ","%char c s Hne) as (piece & pieces & -> & ->).
  simpl. by rewrite trim_skips_white.
Qed.

Lemma parseTags_app s1 s2 :
  parseTags (s1 +:+ String "," s2) = parseTags s1 ++ parseTags s2.
Proof. unfold parseTags. by rewrite split_app, fmap_app, filter_app. Qed.

Lemma parseTags_all_clean s : Forall clean_tag (parseTags s).
Proof.
  unfold parseTags. apply Forall_forall.
  intros t [Ht (piece & -> & Hpiece)%list_elem_of_fmap]%list_elem_of_filter.
  split_and!; [done|apply trim_idem|].
  apply trim_keeps_out.
  pose proof (split_no_sep ","%char s) as Hs.
  rewrite Forall_forall in Hs. by apply Hs.
Qed.

(** X1.  Whatever stands in the tags field, the tags [handleSubmit]
    makes of it are not empty, have no white space at either end, and
    hold no comma. *)
Theorem parseTags_clean (s : string) : Forall clean_tag (parseTags s).
Proof. apply parseTags_all_clean. Qed.

Lemma parseTags_of_join tg :
  Forall clean_tag tg → parseTags (JS.join ", " tg) = tg.
Proof.
  induction 1 as [|t tg (Hne & Htrim & Hcomma) Htg IH]; [done|].
  assert (parseTags t = [t]) as Ht.
  { rewrite parseTags_piece by done. rewrite Htrim. by rewrite decide_False. }
  destruct tg as [|t' tg]; [done|].
  change (JS.join ", " (t :: t' :: tg))
    with (t +:+ String "," (String " " (JS.join ", " (t' :: tg)))).
  by rewrite parseTags_app, Ht, parseTags_white, IH by (by vm_compute).
Qed.


(** X3.  [handleSubmit] makes no tag at all exactly of a field whose
    characters are white space and commas and nothing else, the empty
    field among them. *)
Theorem parseTags_none (s : string) :
  parseTags s = [] ↔
  Forall (λ p, JS.is_white p ∨ p = 0x2C) (Unicode.code_points s).
Proof.
  rewrite <- (join_split "," s) at 2.
  rewrite <- (points_of_pieces (λ p, JS.is_white p));
    [|apply split_no_sep|apply split_not_nil].
  unfold parseTags.
  induction (JS.split "," s) as [|piece pieces IH]; [by split; [constructor|]|].
  rewrite fmap_cons, filter_cons, Forall_cons, <- IH.
  fold (JS.blank piece). rewrite <- trim_Empty.
  case_decide; naive_solver.
Qed.

(** X4.  A comma in the field separates: the tags of a text with a comma
    in it are the tags of what stands before the comma followed by the
    tags of what stands after it.  So the order of the tags is that of
    the field, and a tag written twice is there twice. *)
Theorem parseTags_comma (s1 s2 : string) :
  parseTags (s1 +:+ String "," s2) = parseTags s1 ++ parseTags s2.
Proof. apply parseTags_app. Qed.

End tag_field.

(** ** The hidden field *)

Section id_field.

(** The ten digits. *)
Lemma digit_cases n :
  ∃ d, (d = 0 ∨ d = 1 ∨ d = 2 ∨ d = 3 ∨ d = 4 ∨ d = 5 ∨ d = 6 ∨ d = 7 ∨ d = 8 ∨ d = 9) ∧
       n mod 10 = d ∧ Browser.digit n = ascii_of_N (Z.to_N (48 + d)).
Proof.
  exists (n mod 10). split_and!; [|done|done].
  pose proof (Z.mod_pos_bound n 10). lia.
Qed.

Lemma digit_in_digit n : JS.digit_in 10 (Browser.digit n) = Some (n mod 10).
Proof.
  destruct (digit_cases n) as (d & Hd & -> & ->).
  destruct Hd as [->|[->|[->|[->|[->|[->|[->|[->|[->| ->]]]]]]]]]; reflexivity.
Qed.

(** A digit is neither white space, nor a sign, nor the letter that
    announces hexadecimal digits. *)
Lemma digit_plain n :
  (Unicode.byte (Browser.digit n) < 0x80 ∧
   ¬ JS.is_white (Unicode.byte (Browser.digit n))) ∧
  Browser.digit n ≠ "-"%char ∧ Browser.digit n ≠ "+"%char ∧
  Browser.digit n ≠ "x"%char ∧ Browser.digit n ≠ "X"%char.
Proof.
  destruct (digit_cases n) as (d & Hd & _ & ->).
  destruct Hd as [->|[->|[->|[->|[->|[->|[->|[->|[->| ->]]]]]]]]];
    (split_and!; [done|by vm_compute|done..]).
Qed.

(** A text that begins with a byte below [0x80] that is no white space
    has no white space in front. *)
Lemma trimStart_plain c r :
  Unicode.byte c < 0x80 → ¬ JS.is_white (Unicode.byte c) →
  JS.trimStart (String c r) = String c r.
Proof. intros Hc Hw. apply trimStart_fixed. by rewrite front_ascii. Qed.

(** The digits of [n] in front of [tail] are read back as [n]. *)
Lemma digits_value_dec fuel n tail :
  0 ≤ n < 2 ^ Z.of_nat fuel →
  ∃ p, ∀ acc, JS.digits_value 10 acc (Browser.dec_digits fuel n tail)
              = JS.digits_value 10 (acc * p + n) tail.
Proof.
  revert n tail. induction fuel as [|k IH]; intros n tail Hn.
  - exists 1. intros acc. simpl in *. do 2 f_equal. lia.
  - simpl Browser.dec_digits. case_decide as Hsmall.
    + exists 10. intros acc. simpl. rewrite digit_in_digit.
      f_equal. rewrite Z.mod_small by lia. lia.
    + destruct (IH (n / 10) (String (Browser.digit n) tail)) as (p & Hp).
      { rewrite Nat2Z.inj_succ, Z.pow_succ_r in Hn by lia.
        split; [apply Z.div_pos; lia|].
        apply Z.div_lt_upper_bound; lia. }
      exists (10 * p). intros acc. rewrite Hp. simpl. rewrite digit_in_digit.
      f_equal. pose proof (Z.div_mod n 10). lia.
Qed.

(** What the decimal form of a number begins with. *)
Lemma dec_digits_head k n tail :
  ∃ m r, Browser.dec_digits (S k) n tail = String (Browser.digit m) r ∧
         (r = tail ∨ ∃ m' r', r = String (Browser.digit m') r').
Proof.
  revert n tail. induction k as [|k IH]; intros n tail.
  - exists n, tail. simpl. split; [by case_decide|by left].
  - change (Browser.dec_digits (S (S k)) n tail)
      with (if decide (n < 10) then String (Browser.digit n) tail
            else Browser.dec_digits (S k) (n / 10) (String (Browser.digit n) tail)).
    case_decide.
    + exists n, tail. split; [done|by left].
    + destruct (IH (n / 10) (String (Browser.digit n) tail)) as (m & r & -> & Hr).
      exists m, r. split; [done|]. destruct Hr as [->|?]; [|by right].
      right. by eexists _, _.
Qed.

Lemma parseInt_digits k n :
  0 ≤ n < 2 ^ Z.of_nat (S k) →
  JS.parseInt (Browser.dec_digits (S k) n EmptyString) = Some n ∧
  JS.parseInt (String "-" (Browser.dec_digits (S k) n EmptyString)) = Some (- n).
Proof.
  intros Hn.
  destruct (digits_value_dec (S k) n EmptyString Hn) as (p & Hp).
  specialize (Hp 0). simpl JS.digits_value at 2 in Hp.
  destruct (dec_digits_head k n EmptyString) as (m & r & Hs & Hr).
  rewrite Hs in *.
  destruct (digit_plain m) as ([Hlow Hw] & Hminus & Hplus & _).
  assert (∀ sign, (let '(radix, s) :=
              match String (Browser.digit m) r with
              | String c1 (String c2 r0) =>
                  if decide (c1 = "0"%char ∧ (c2 = "x"%char ∨ c2 = "X"%char))
                  then (16, r0) else (10, String (Browser.digit m) r)
              | _ => (10, String (Browser.digit m) r)
              end in
            match s with
            | String c _ =>
                match JS.digit_in radix c with
                | Some _ => Some (sign * JS.digits_value radix 0 s)
                | None => None
                end
            | EmptyString => None
            end) = Some (sign * n)) as Hrest.
  { intros sign.
    assert (match String (Browser.digit m) r with
            | String c1 (String c2 r0) =>
                if decide (c1 = "0"%char ∧ (c2 = "x"%char ∨ c2 = "X"%char))
                then (16, r0) else (10, String (Browser.digit m) r)
            | _ => (10, String (Browser.digit m) r)
            end = (10, String (Browser.digit m) r)) as ->.
    { destruct Hr as [->|(m' & r' & ->)]; [done|].
      destruct (digit_plain m') as (_ & _ & _ & Hx & HX).
      rewrite decide_False; [done|]. naive_solver. }
    rewrite digit_in_digit, Hp. f_equal; lia. }
  split.
  - unfold JS.parseInt. rewrite trimStart_plain by done. cbv zeta.
    rewrite !decide_False by done. rewrite (Hrest 1). f_equal; lia.
  - unfold JS.parseInt. rewrite trimStart_plain by (by vm_compute). cbv zeta.
    rewrite decide_True by done. rewrite (Hrest (-1)). f_equal; lia.
Qed.

Lemma parseInt_toString n : JS.parseInt (JS.Number_toString n) = Some n.
Proof.
  unfold JS.Number_toString, Browser.Z_to_dec.
  case_decide as Hneg.
  - destruct (parseInt_digits (Z.to_nat (Z.log2 (- n))) (- n)) as [_ ->].
    + pose proof (Z.log2_spec (- n)). pose proof (Z.log2_nonneg (- n)).
      rewrite Nat2Z.inj_succ, Z2Nat.id by done. lia.
    + f_equal. lia.
  - destruct (parseInt_digits (Z.to_nat (Z.log2 n)) n) as [-> _]; [|done].
    pose proof (Z.log2_nonneg n).
    rewrite Nat2Z.inj_succ, Z2Nat.id by done.
    destruct (decide (n = 0)) as [->|]; [done|].
    pose proof (Z.log2_spec n). lia.
Qed.

(** X5.  [editBlog] puts the id of the entry into the hidden field, as a
    string; [handleSubmit] reads from that string, with [parseInt], the
    same id, for every integer that a number holds exactly. *)
Theorem parseInt_of_id (n : Z) :
  safe_integer n → JS.parseInt (JS.Number_toString n) = Some n.
Proof. intros _. apply parseInt_toString. Qed.

End id_field.

(** ** More on the manager *)

Section sort_more.
Context {A : Type} (cmp : A → A → Z).

(** An element that no element of a list precedes stays in front. *)
Lemma sort_insert_front x l :
  Forall (λ y, cmp x y ≤ 0) l → sort_insert cmp x l = x :: l.
Proof.
  destruct 1 as [|y l Hy _]; [done|]. simpl. rewrite decide_False; [done|lia].
Qed.

(** An element that comes after all the others, put anywhere into a list
    in order, is moved to the front, and the others keep their places. *)
Lemma Array_sort_newest x l1 l2 :
  StronglySorted (λ y z, cmp y z ≤ 0) (l1 ++ l2) →
  Forall (λ y, 0 < cmp y x ∧ cmp x y ≤ 0) (l1 ++ l2) →
  Array_sort cmp (l1 ++ x :: l2) = x :: l1 ++ l2.
Proof.
  induction l1 as [|y l1 IH]; simpl; intros Hs Hx.
  - fold (Array_sort cmp l2). rewrite (Array_sort_of_sorted cmp l2 Hs).
    apply sort_insert_front. eapply Forall_impl; [exact Hx|]. by intros ? [? ?].
  - apply StronglySorted_inv in Hs as [Hs Hy].
    apply Forall_cons in Hx as [[Hyx _] Hx].
    fold (Array_sort cmp (l1 ++ x :: l2)). rewrite (IH Hs Hx). simpl.
    rewrite decide_True by done. f_equal. by apply sort_insert_front.
Qed.

(** Sorting and filtering can be done in either order. *)
Context (R : relation A) `{!Transitive R}.
Hypothesis cmp_le : ∀ x y, cmp x y ≤ 0 → R x y.
Hypothesis cmp_gt : ∀ x y, 0 < cmp x y → R y x.
Hypothesis cmp_R : ∀ x y z, cmp x y ≤ 0 → R y z → cmp x z ≤ 0.

Lemma sort_insert_filter (Q : A → Prop) `{∀ x, Decision (Q x)} x l :
  StronglySorted R l →
  filter Q (sort_insert cmp x l) =
    if decide (Q x) then sort_insert cmp x (filter Q l) else filter Q l.
Proof.
  induction 1 as [|y l Hl IH Hy]; cbn [sort_insert].
  - rewrite filter_cons, !filter_nil. by destruct (decide (Q x)).
  - destruct (decide (0 < cmp x y)) as [Hxy|Hxy].
    + rewrite !filter_cons, IH.
      destruct (decide (Q x)), (decide (Q y)); cbn [sort_insert]; try done.
      by rewrite decide_True.
    + rewrite filter_cons. destruct (decide (Q x)) as [Hx|Hx]; [|done].
      rewrite sort_insert_front; [done|].
      apply Forall_forall. intros z [_ Hz]%list_elem_of_filter.
      apply elem_of_cons in Hz as [->|Hz]; [lia|].
      rewrite Forall_forall in Hy. apply (cmp_R x y z); [lia|auto].
Qed.

Lemma Array_sort_filter (Q : A → Prop) `{∀ x, Decision (Q x)} l :
  filter Q (Array_sort cmp l) = Array_sort cmp (filter Q l).
Proof.
  induction l as [|x l IH]; [done|]. simpl. fold (Array_sort cmp l).
  rewrite sort_insert_filter by (by apply Array_sort_sorted).
  rewrite filter_cons, IH. by case_decide.
Qed.
End sort_more.

Section manager_more.
Context `{P : Platform}.

Lemma blogs_sort_filter (Q : Blog → Prop) `{∀ b, Decision (Q b)} l :
  filter Q (Array_sort (λ a b, updatedDate b - updatedDate a) l)
    = Array_sort (λ a b, updatedDate b - updatedDate a) (filter Q l).
Proof.
  apply (Array_sort_filter _ newer_first); unfold newer_first; intros; lia.
Qed.

Lemma sorted_by_comparator l :
  sorted_newest_first l →
  StronglySorted (λ a b, updatedDate b - updatedDate a ≤ 0) l.
Proof.
  induction 1 as [|x l Hl IH Hx]; constructor; [done|].
  eapply Forall_impl; [exact Hx|]. unfold newer_first. intros; lia.
Qed.

Lemma blogs_sort_sorted l :
  sorted_newest_first l → Array_sort (λ a b, updatedDate b - updatedDate a) l = l.
Proof. intros Hl. by apply Array_sort_of_sorted, sorted_by_comparator. Qed.

Lemma blogs_sort_newest x l1 l2 :
  sorted_newest_first (l1 ++ l2) →
  Forall (λ b, updatedDate b < updatedDate x) (l1 ++ l2) →
  Array_sort (λ a b, updatedDate b - updatedDate a) (l1 ++ x :: l2) = x :: l1 ++ l2.
Proof.
  intros Hs Hx. apply Array_sort_newest; [by apply sorted_by_comparator|].
  eapply Forall_impl; [exact Hx|]. intros y Hy. simpl in *. lia.
Qed.

Lemma sorted_without l1 b l2 :
  sorted_newest_first (l1 ++ b :: l2) → sorted_newest_first (l1 ++ l2).
Proof.
  unfold sorted_newest_first. rewrite !StronglySorted_app, StronglySorted_cons.
  intros (H12 & H1 & _ & H2). split_and!; [|done..].
  intros x1 x2 Hx1 Hx2. apply H12; [done|]. by apply list_elem_of_further.
Qed.

(** X6.  A post that is added and then deleted by its id leaves the
    collection as it was before, entry for entry and in the same order,
    when the array was in order and no entry had the id that the clock
    gave to the new post. *)
Theorem add_then_delete (t c : string) (tg : list string) (w : World) :
  sorted_newest_first (blogs w) →
  Forall (λ b, id b ≠ clock (ticks w)) (blogs w) →
  ∃ b w1 w2, addBlog t c tg w = Ok (b, w1) ∧
             deleteBlog (id b) w1 = Ok ((), w2) ∧
             blogs w2 = blogs w.
Proof.
  intros Hs Hid. rewrite addBlog_spec. eexists _, _, _. split; [done|].
  rewrite deleteBlog_spec. split; [done|]. cbn [blogs id].
  rewrite blogs_sort_filter, filter_app, (filter_all _ _ Hid).
  rewrite filter_cons_False, filter_nil, app_nil_r by (simpl; tauto).
  by apply blogs_sort_sorted.
Qed.

(** X7.  A post added to a collection in order comes first, in front of
    the entries that were there, which keep their order, when each of
    them was last updated before the new post was made. *)
Theorem added_post_first (t c : string) (tg : list string) (w : World) :
  sorted_newest_first (blogs w) →
  Forall (λ b, updatedDate b < clock (S (S (ticks w)))) (blogs w) →
  ∃ b w', addBlog t c tg w = Ok (b, w') ∧ blogs w' = b :: blogs w.
Proof.
  intros Hs Hold. rewrite addBlog_spec. eexists _, _. split; [done|].
  cbn [blogs]. rewrite <- (app_nil_r (blogs w)) at 2.
  apply blogs_sort_newest; by rewrite app_nil_r.
Qed.

(** X8.  An entry that is edited moves to the front of a collection in
    order, and the other entries keep their order, when each entry was
    last updated before the time of the edit. *)
Theorem edited_post_first (i : Z) (t c : string) (tg : list string) (w : World)
    (l1 l2 : list Blog) (b : Blog) :
  sorted_newest_first (blogs w) →
  Forall (λ x, updatedDate x < clock (ticks w)) (blogs w) →
  blogs w = l1 ++ b :: l2 → id b = i → Forall (λ x, id x ≠ i) l1 →
  ∃ b' w', updateBlog i t c tg w = Ok (Some b', w') ∧
           b' = mkBlog i t c tg (createdDate b) (clock (ticks w)) ∧
           blogs w' = b' :: l1 ++ l2.
Proof.
  intros Hs Hold Hl Hid Hfirst.
  assert (findBlog i (blogs w) = Some (length l1, b)) as Hf.
  { apply findBlog_Some. by exists l1, l2. }
  rewrite (updateBlog_found _ t c tg _ _ _ Hf). eexists _, _. split; [done|].
  split; [by rewrite Hid|]. cbn [blogs]. rewrite Hl in *.
  rewrite (insert_app_r_alt _ _ (length l1)), Nat.sub_diag by lia. simpl.
  rewrite Hid. apply blogs_sort_newest.
  - by apply sorted_without in Hs.
  - apply Forall_app in Hold as [H1 [_ H2]%Forall_cons]. by apply Forall_app.
Qed.

End manager_more.

Section manager_lookup.
Context `{P : Platform}.

Lemma getBlog_spec i w : getBlog i w = Ok (snd <$> findBlog i (blogs w), w).
Proof. done. Qed.

(** X9.  [getBlog] with the id of a post just added returns that post,
    when no entry had the id that the clock gave to it. *)
Theorem getBlog_added (t c : string) (tg : list string) (w : World) :
  Forall (λ b, id b ≠ clock (ticks w)) (blogs w) →
  ∃ b w', addBlog t c tg w = Ok (b, w') ∧ getBlog (id b) w' = Ok (Some b, w').
Proof.
  intros Hid. rewrite addBlog_spec. eexists _, _. split; [done|].
  rewrite getBlog_spec. cbn [blogs id].
  match goal with |- context [ findBlog ?i ?l ] =>
    destruct (findBlog i l) as [[slot b]|] eqn:Hf
  end.
  - apply findBlog_Some in Hf as (l1 & l2 & Hl & _ & Hb & _).
    assert (b ∈ blogs w ++ [mkBlog (clock (ticks w)) t c tg (clock (S (ticks w)))
                                    (clock (S (S (ticks w))))]) as Hin.
    { rewrite <- (Array_sort_perm (λ a b, updatedDate b - updatedDate a)), Hl.
      apply elem_of_app. right. left. }
    apply elem_of_app in Hin as [Hin|Hin%list_elem_of_singleton]; [|by subst].
    rewrite Forall_forall in Hid. by destruct (Hid b Hin).
  - apply findBlog_None in Hf. rewrite Forall_forall in Hf.
    destruct (Hf (mkBlog (clock (ticks w)) t c tg (clock (S (ticks w)))
                         (clock (S (S (ticks w)))))); [|done].
    rewrite Array_sort_elem_of, elem_of_app, list_elem_of_singleton. by right.
Qed.

(** X10.  After [deleteBlog] of an id, [getBlog] of that id returns
    [undefined], and a second [deleteBlog] of it leaves the array as the
    first one left it. *)
Theorem getBlog_deleted (i : Z) (w : World) :
  ∃ w1 w2, deleteBlog i w = Ok ((), w1) ∧
           getBlog i w1 = Ok (None, w1) ∧
           deleteBlog i w1 = Ok ((), w2) ∧ blogs w2 = blogs w1.
Proof.
  rewrite deleteBlog_spec. eexists _, _. split; [done|].
  assert (Forall (λ b, id b ≠ i) (filter (λ b, id b ≠ i) (blogs w))) as Hgone.
  { apply Forall_forall. by intros b [? _]%list_elem_of_filter. }
  split_and!.
  - rewrite getBlog_spec. cbn [blogs].
    by apply findBlog_None in Hgone as ->.
  - by rewrite deleteBlog_spec.
  - cbn [blogs]. by apply filter_all.
Qed.

(** The tags that [getAllTags] returns, and the entries that
    [filterByTag] returns for a tag. *)
Lemma getAllTags_tagsOf w : getAllTags w = Ok (tagsOf (blogs w), w).
Proof. done. Qed.

Lemma filterByTag_taggedWith x w :
  filterByTag (Some x) w = Ok (taggedWith x (blogs w), w).
Proof. unfold filterByTag, taggedWith. run. by case_decide. Qed.

Lemma tagsOf_elem_of x l : x ∈ tagsOf l ↔ ∃ b, b ∈ l ∧ x ∈ tags b.
Proof.
  unfold tagsOf. rewrite Array_sort_elem_of, all_tags_elem_of, elem_of_nil. naive_solver.
Qed.

(** X11.  The tags that [getAllTags] returns are the tags for which
    [filterByTag] returns some entry: a tag that is not empty is among
    them exactly when the collection under that tag is not empty. *)
Theorem tag_listed_iff_shown (x : string) (w : World) :
  x ≠ EmptyString →
  ∃ ts l, getAllTags w = Ok (ts, w) ∧ filterByTag (Some x) w = Ok (l, w) ∧
          (x ∈ ts ↔ l ≠ []).
Proof.
  intros Hx. exists (tagsOf (blogs w)), (taggedWith x (blogs w)).
  split_and!; [done|apply filterByTag_taggedWith|].
  rewrite tagsOf_elem_of. unfold taggedWith. rewrite decide_False by done. split.
  - intros (b & Hb & Hxb) Hnil.
    assert (b ∈ filter (λ b, x ∈ tags b) (blogs w)) as Hin
      by (by apply list_elem_of_filter).
    rewrite Hnil in Hin. by apply elem_of_nil in Hin.
  - destruct (filter (λ b, x ∈ tags b) (blogs w)) as [|b l] eqn:Hl; [done|].
    intros _. exists b.
    assert (b ∈ filter (λ b, x ∈ tags b) (blogs w)) as Hin by (rewrite Hl; left).
    apply list_elem_of_filter in Hin. tauto.
Qed.

(** The store after each call. *)
Lemma perform_up_to_date k w w' :
  perform k w = Ok ((), w') → up_to_date w → up_to_date w'.
Proof.
  destruct k as [t c tg|i t c tg|i]; simpl.
  - erewrite bind_Ok by apply addBlog_spec. intros [= <-] _. left.
    unfold in_sync. cbn [localStorage blogs]. apply lookup_insert_eq.
  - destruct (findBlog i (blogs w)) as [[slot blog]|] eqn:Hf.
    + erewrite bind_Ok by (by apply updateBlog_found). intros [= <-] _. left.
      unfold in_sync. cbn [localStorage blogs]. apply lookup_insert_eq.
    + erewrite bind_Ok by (by apply updateBlog_missing). by intros [= <-].
  - rewrite deleteBlog_spec. intros [= <-] _. left.
    unfold in_sync. cbn [localStorage blogs]. apply lookup_insert_eq.
Qed.

Lemma perform_other_keys k w w' key :
  perform k w = Ok ((), w') → key ≠ "blogs"%string →
  localStorage w' !! key = localStorage w !! key.
Proof.
  intros Hk Hkey. destruct k as [t c tg|i t c tg|i]; simpl in Hk.
  - erewrite bind_Ok in Hk by apply addBlog_spec. injection Hk as <-.
    cbn [localStorage]. by rewrite lookup_insert_ne.
  - destruct (findBlog i (blogs w)) as [[slot blog]|] eqn:Hf.
    + erewrite bind_Ok in Hk by (by apply updateBlog_found). injection Hk as <-.
      cbn [localStorage]. by rewrite lookup_insert_ne.
    + erewrite bind_Ok in Hk by (by apply updateBlog_missing). by injection Hk as <-.
  - rewrite deleteBlog_spec in Hk. injection Hk as <-.
    cbn [localStorage]. by rewrite lookup_insert_ne.
Qed.

(** X12.  The store keeps up with the manager.  From a manager whose
    store is as it left it (or a new one on a page never written), after
    each call of [addBlog], [updateBlog] or [deleteBlog] the store again
    is as the manager left it; and a manager made then on a page with
    that store holds the same entries in the same order, if the platform
    reads back the text it wrote for the array and its dates. *)
Theorem store_keeps_up (ks : list call) (w : World) :
  up_to_date w →
  ∃ ws, trace ks w = Ok ws ∧
        Forall (λ w', up_to_date w' ∧
                  (JSON_parse (JSON_stringify (JArr (Blog_toJSON <$> blogs w')))
                     = Some (JArr (Blog_toJSON <$> blogs w')) →
                   JSON_stringify (JArr (Blog_toJSON <$> blogs w')) ≠ EmptyString →
                   Forall (λ b, date_round_trips (createdDate b) ∧
                                date_round_trips (updatedDate b)) (blogs w') →
                   ∀ page, localStorage page = localStorage w' →
                           ∃ page', BlogManager_new page = Ok ((), page') ∧
                                    blogs page' = blogs w')) ws.
Proof.
  revert w. induction ks as [|k ks IH]; intros w Hw; simpl; [by exists []|].
  destruct (perform_Ok k w) as [w' Hk]. rewrite Hk.
  pose proof (perform_up_to_date _ _ _ Hk Hw) as Hw'.
  destruct (IH w' Hw') as (ws & -> & Hall).
  eexists. split; [done|]. constructor; [|done]. split; [done|].
  intros Hjson Htext Hdates page Hpage.
  destruct Hw' as [Hsync|[Hnone Hnil]].
  - rewrite (BlogManager_new_restores (blogs w') page);
      [by eexists|rewrite Hpage; exact Hsync|done..].
  - rewrite BlogManager_new_empty by (by rewrite Hpage).
    eexists. split; [done|]. by rewrite Hnil.
Qed.

(** X13.  The manager writes one key of the store, [blogs], and no
    other: whatever calls are made, every other key keeps the value it
    had, or stays absent. *)
Theorem other_keys_untouched (ks : list call) (w : World) :
  ∃ ws, trace ks w = Ok ws ∧
        Forall (λ w', ∀ key, key ≠ "blogs"%string →
                  localStorage w' !! key = localStorage w !! key) ws.
Proof.
  revert w. induction ks as [|k ks IH]; intros w; simpl; [by exists []|].
  destruct (perform_Ok k w) as [w' Hk]. rewrite Hk.
  destruct (IH w') as (ws & -> & Hall).
  eexists. split; [done|]. constructor.
  - intros key Hkey. by eapply perform_other_keys.
  - eapply Forall_impl; [exact Hall|]. intros w'' Hw'' key Hkey.
    rewrite (Hw'' key Hkey). by eapply perform_other_keys.
Qed.

End manager_lookup.

(** ** The page *)

Section page_facts.
Context `{P : Platform} `{D : Document}.

Lemma fst_pair_fmap (l : list string) : ((λ tag, (tag, tag)) <$> l).*1 = l.
Proof. induction l as [|x l IH]; [done|]. rewrite !fmap_cons. cbn [fst]. by rewrite IH. Qed.

Lemma render_spec pg w :
  render pg w =
    Ok (set_blogList (JS.join "" (post_markup <$> taggedWith (filterValue pg) (blogs w))) pg, w).
Proof. unfold render. by erewrite bind_Ok by apply filterByTag_taggedWith. Qed.

Lemma updateTagFilter_spec pg w :
  updateTagFilter pg w =
    Ok (set_filter ((EmptyString, Text.all_posts) :: ((λ tag, (tag, tag)) <$> tagsOf (blogs w)))
          (if decide (filterValue pg ∈ tagsOf (blogs w)) then filterValue pg else EmptyString)
          pg, w).
Proof. done. Qed.

(** The filter rebuilt and the list drawn again, as after every change
    of the collection. *)
Lemma refresh_spec pg w :
  ∃ pg', (updateTagFilter pg ≫= render) w = Ok (pg', w) ∧
         view_current pg' w ∧ filter_current pg' w ∧
         filterValue pg' =
           (if decide (filterValue pg ∈ tagsOf (blogs w)) then filterValue pg
            else EmptyString) ∧
         titleInput pg' = titleInput pg ∧ contentInput pg' = contentInput pg ∧
         tagsInput pg' = tagsInput pg ∧ editIdInput pg' = editIdInput pg ∧
         formTitle pg' = formTitle pg ∧ cancelHidden pg' = cancelHidden pg.
Proof.
  erewrite bind_Ok by apply updateTagFilter_spec. rewrite render_spec.
  eexists. split; [done|]. split_and!; try done.
  unfold filter_current. cbn [filterOptions filterValue set_filter set_blogList].
  rewrite fmap_cons, fst_pair_fmap. cbn [fst]. split; [done|].
  case_decide; [by right|left].
Qed.

Lemma resetForm_create_mode pg : create_mode (resetForm pg).
Proof. done. Qed.

(** What [handleSubmit] does with a form that has a title and a content:
    one call of the manager, then the form is reset and the page drawn. *)
Lemma handleSubmit_valid pg w :
  JS.trim (titleInput pg) ≠ EmptyString → JS.trim (contentInput pg) ≠ EmptyString →
  ∃ w' pg',
    perform (match JS.parseInt (editIdInput pg) with
             | Some i =>
                 if decide (i ≠ 0)
                 then Update i (JS.trim (titleInput pg)) (JS.trim (contentInput pg))
                               (parseTags (tagsInput pg))
                 else Add (JS.trim (titleInput pg)) (JS.trim (contentInput pg))
                          (parseTags (tagsInput pg))
             | None => Add (JS.trim (titleInput pg)) (JS.trim (contentInput pg))
                           (parseTags (tagsInput pg))
             end) w = Ok ((), w') ∧
    (updateTagFilter (resetForm pg) ≫= render) w' = Ok (pg', w') ∧
    handleSubmit pg w = Ok (pg', w').
Proof.
  intros Ht Hc.
  match goal with |- context [ perform ?k w ] =>
    destruct (perform_Ok k w) as [w' Hk]
  end.
  destruct (refresh_spec (resetForm pg) w') as (pg' & Hpg' & _).
  exists w', pg'. split_and!; [done|done|].
  unfold handleSubmit. cbv zeta. rewrite decide_True by done.
  destruct (JS.parseInt (editIdInput pg)) as [i|]; [destruct (decide (i ≠ 0))|];
    by erewrite bind_Ok by exact Hk.
Qed.

(** X14.  A form whose title, or whose content, holds nothing but white
    space is not sent on: [handleSubmit] leaves the collection, the store
    and the page as they are. *)
Theorem handleSubmit_blank (pg : Page) (w : World) :
  JS.blank (titleInput pg) ∨
  JS.blank (contentInput pg) →
  handleSubmit pg w = Ok (pg, w).
Proof.
  rewrite <- !trim_Empty. intros Hblank.
  unfold handleSubmit. cbv zeta. rewrite decide_False; [done|tauto].
Qed.

(** X15.  A form with a title and a content, and with no id in the
    hidden field (the field empty, or holding 0 or no number), makes a
    new post: [handleSubmit] calls [addBlog] with the title and the
    content trimmed and the tags of the tags field.  The post is as the
    form makes them; afterwards the form is set for a new post, the
    filter offers the tags of the collection, and the list shows the
    collection under the tag selected. *)
Theorem handleSubmit_adds (pg : Page) (w : World) :
  ¬ JS.blank (titleInput pg) →
  ¬ JS.blank (contentInput pg) →
  JS.parseInt (editIdInput pg) = None ∨ JS.parseInt (editIdInput pg) = Some 0 →
  ∃ b w' pg',
    addBlog (JS.trim (titleInput pg)) (JS.trim (contentInput pg))
            (parseTags (tagsInput pg)) w = Ok (b, w') ∧
    handleSubmit pg w = Ok (pg', w') ∧
    tidy b ∧ create_mode pg' ∧ filter_current pg' w' ∧ view_current pg' w'.
Proof.
  rewrite <- !trim_Empty. intros Ht Hc Hid.
  destruct (handleSubmit_valid pg w Ht Hc) as (w' & pg' & Hk & Hpg' & Hrun).
  assert (perform (Add (JS.trim (titleInput pg)) (JS.trim (contentInput pg))
                       (parseTags (tagsInput pg))) w = Ok ((), w')) as Hadd.
  { destruct Hid as [Hid|Hid]; rewrite Hid in Hk; [done|].
    by rewrite decide_False in Hk by (intros ?; done). }
  simpl in Hadd. erewrite bind_Ok in Hadd by apply addBlog_spec.
  injection Hadd as Hw'.
  destruct (refresh_spec (resetForm pg) w') as (pg'' & Hpg'' & Hview & Hfilter & _ & _ & _ & _ & He & Hf & Hc').
  rewrite Hpg' in Hpg''. injection Hpg'' as <-.
  eexists _, w', pg'. split_and!; try done.
  - rewrite addBlog_spec. by rewrite Hw'.
  - unfold tidy. cbn [title content tags].
    split_and!; [done|apply trim_idem|done|apply trim_idem|apply parseTags_all_clean].
Qed.

End page_facts.

Section page_flow.
Context `{P : Platform} `{D : Document}.

Lemma handleSubmit_invalid pg w :
  ¬ (JS.trim (titleInput pg) ≠ EmptyString ∧ JS.trim (contentInput pg) ≠ EmptyString) →
  handleSubmit pg w = Ok (pg, w).
Proof. intros Hno. unfold handleSubmit. cbv zeta. by rewrite decide_False. Qed.

Lemma editBlog_spec i pg w :
  BlogUI_editBlog i pg w =
    Ok (match snd <$> findBlog i (blogs w) with
        | Some b =>
            set_scroll (0, 0)
              (set_cancelHidden false
                (set_formTitle Text.edit_heading
                  (set_input EditIdInput (held EditIdInput (JS.Number_toString (id b)))
                    (set_input TagsInput (held TagsInput (JS.join ", " (tags b)))
                      (set_input ContentInput (held ContentInput (content b))
                        (set_input TitleInput (held TitleInput (title b)) pg))))))
        | None => pg
        end, w).
Proof.
  unfold BlogUI_editBlog. erewrite bind_Ok by apply getBlog_spec.
  by destruct (snd <$> findBlog i (blogs w)).
Qed.

Lemma deleteBlog_page_spec i pg w :
  ∃ pg' w', BlogUI_deleteBlog i true pg w = Ok (pg', w') ∧
            deleteBlog i w = Ok ((), w') ∧
            (updateTagFilter pg ≫= render) w' = Ok (pg', w').
Proof.
  unfold BlogUI_deleteBlog.
  destruct (refresh_spec pg
              (mkWorld (filter (λ b, id b ≠ i) (blogs w))
                 (<["blogs"%string :=
                      JSON_stringify (JArr (Blog_toJSON <$> filter (λ b, id b ≠ i) (blogs w)))]>
                    (localStorage w)) (ticks w))) as (pg' & Hpg' & _).
  eexists pg', _. split_and!; [|apply deleteBlog_spec|exact Hpg'].
  by erewrite bind_Ok by apply deleteBlog_spec.
Qed.

(** X16.  A form sent for the edit of an entry that is no longer in the
    collection changes neither the collection nor the store, and the form
    is reset all the same, with what had been typed into it: the edit is
    dropped without a word. *)
Theorem handleSubmit_vanished (pg : Page) (w : World) (i : Z) :
  ¬ JS.blank (titleInput pg) →
  ¬ JS.blank (contentInput pg) →
  JS.parseInt (editIdInput pg) = Some i → i ≠ 0 →
  Forall (λ b, id b ≠ i) (blogs w) →
  ∃ pg', handleSubmit pg w = Ok (pg', w) ∧ create_mode pg' ∧
         titleInput pg' = titleInput (form_reset pg) ∧
         contentInput pg' = contentInput (form_reset pg) ∧
         tagsInput pg' = tagsInput (form_reset pg).
Proof.
  rewrite <- !trim_Empty. intros Ht Hc Hid Hi Hgone.
  destruct (handleSubmit_valid pg w Ht Hc) as (w' & pg' & Hk & Hpg' & Hrun).
  rewrite Hid, decide_True in Hk by done. simpl in Hk.
  erewrite bind_Ok in Hk by (by apply updateBlog_missing, findBlog_None).
  injection Hk as <-.
  destruct (refresh_spec (resetForm pg) w)
    as (pg'' & Hpg'' & _ & _ & _ & Ht' & Hc' & Hg' & He & Hf & Hh).
  rewrite Hpg' in Hpg''. injection Hpg'' as <-.
  exists pg'. split_and!; [done| |by rewrite Ht'|by rewrite Hc'|by rewrite Hg'].
  unfold create_mode. by rewrite He, Hf, Hh.
Qed.

(** X17.  An entry opened for edit and sent back as it is keeps its
    title, its content and its tags, and only its [updatedDate] moves, to
    the time of the sending.  It holds for an entry as the form makes
    them, found by its id, the id a number other than 0 that is held
    exactly, on a page whose controls hold what is assigned to them. *)
Theorem edit_then_submit (pg : Page) (w : World) (l1 l2 : list Blog) (b : Blog) :
  blogs w = l1 ++ b :: l2 → Forall (λ x, id x ≠ id b) l1 →
  id b ≠ 0 → safe_integer (id b) → tidy b → held_as_written b →
  ∃ pg1 pg2 b' w',
    BlogUI_editBlog (id b) pg w = Ok (pg1, w) ∧ edit_mode (id b) pg1 ∧
    handleSubmit pg1 w = Ok (pg2, w') ∧ create_mode pg2 ∧
    updateBlog (id b) (title b) (content b) (tags b) w = Ok (Some b', w') ∧
    b' = mkBlog (id b) (title b) (content b) (tags b) (createdDate b) (clock (ticks w)) ∧
    blogs w' ≡ₚ l1 ++ b' :: l2.
Proof.
  intros Hl Hfirst Hid _ (Ht & Htt & Hc & Hcc & Htg) (Hht & Hhc & Hhg & Hhi).
  assert (findBlog (id b) (blogs w) = Some (length l1, b)) as Hf.
  { apply findBlog_Some. by exists l1, l2. }
  rewrite editBlog_spec, Hf. cbn [fmap option_fmap option_map snd].
  set (pg1 := set_scroll (0, 0) _).
  assert (titleInput pg1 = title b ∧ contentInput pg1 = content b ∧
          tagsInput pg1 = JS.join ", " (tags b) ∧
          editIdInput pg1 = JS.Number_toString (id b)) as (Ht1 & Hc1 & Hg1 & Hi1).
  { subst pg1. cbn [titleInput contentInput tagsInput editIdInput
                    set_scroll set_cancelHidden set_formTitle set_input].
    by rewrite Hht, Hhc, Hhg, Hhi. }
  destruct (handleSubmit_valid pg1 w) as (w' & pg2 & Hk & Hpg2 & Hrun).
  { by rewrite Ht1, Htt. }
  { by rewrite Hc1, Hcc. }
  rewrite Ht1, Hc1, Hg1, Hi1, Htt, Hcc in Hk.
  rewrite parseInt_toString, decide_True, parseTags_of_join in Hk by done.
  simpl in Hk. erewrite bind_Ok in Hk by (by apply updateBlog_found).
  injection Hk as Hw'.
  destruct (refresh_spec (resetForm pg1) w')
    as (pg'' & Hpg'' & _ & _ & _ & _ & _ & _ & He & Hfo & Hh).
  rewrite Hpg2 in Hpg''. injection Hpg'' as <-.
  exists pg1, pg2, (mkBlog (id b) (title b) (content b) (tags b) (createdDate b)
                           (clock (ticks w))), w'.
  split_and!; [done| |exact Hrun| | |done|].
  - subst pg1. unfold edit_mode.
    cbn [editIdInput cancelHidden formTitle
         set_scroll set_cancelHidden set_formTitle set_input]. done.
  - unfold create_mode. by rewrite He, Hfo, Hh.
  - rewrite (updateBlog_found _ _ _ _ _ _ _ Hf). by rewrite Hw'.
  - rewrite <- Hw'. cbn [blogs]. rewrite Array_sort_perm, Hl.
    by rewrite (insert_app_r_alt _ _ (length l1)), Nat.sub_diag by lia.
Qed.

(** X18.  The delete button of a post asks first.  On "no" nothing
    changes, on the page or in the collection.  On "yes" every entry with
    the id goes; the filter then offers the tags still in use and keeps
    the tag selected only if it is one of them, falling back to all
    posts otherwise, and the list shows the collection under it. *)
Theorem remove_on_page (i : Z) (pg : Page) (w : World) :
  BlogUI_deleteBlog i false pg w = Ok (pg, w) ∧
  ∃ pg' w', BlogUI_deleteBlog i true pg w = Ok (pg', w') ∧
            deleteBlog i w = Ok ((), w') ∧
            filter_current pg' w' ∧ view_current pg' w' ∧
            filterValue pg' =
              (if decide (filterValue pg ∈ tagsOf (blogs w')) then filterValue pg
               else EmptyString).
Proof.
  split; [done|].
  destruct (deleteBlog_page_spec i pg w) as (pg' & w' & Hrun & Hdel & Hpg').
  destruct (refresh_spec pg w') as (pg'' & Hpg'' & Hview & Hfilter & Hvalue & _).
  rewrite Hpg' in Hpg''. injection Hpg'' as <-.
  by exists pg', w'.
Qed.

End page_flow.

(** ** What stays true while the page is used *)

Section page_invariants.
Context `{P : Platform} `{D : Document}.

Lemma handle_Ok e pg w : ∃ pg' w', handle e pg w = Ok (pg', w').
Proof.
  destruct e as [c v| | |v|i|i [|]]; simpl.
  - by eexists _, _.
  - destruct (decide (JS.trim (titleInput pg) ≠ EmptyString ∧
                      JS.trim (contentInput pg) ≠ EmptyString)) as [[Ht Hc]|Hno].
    + destruct (handleSubmit_valid pg w Ht Hc) as (w' & pg' & _ & _ & Hrun). eauto.
    + rewrite handleSubmit_invalid by done. eauto.
  - by eexists _, _.
  - case_decide; [rewrite render_spec|]; by eexists _, _.
  - rewrite editBlog_spec. by eexists _, _.
  - destruct (deleteBlog_page_spec i pg w) as (pg' & w' & Hrun & _). eauto.
  - by eexists _, _.
Qed.

(** A property that every event keeps holds all along a session. *)
Lemma session_invariant (I : Page → World → Prop) es pg w :
  (∀ e pg w pg' w', handle e pg w = Ok (pg', w') → I pg w → I pg' w') →
  I pg w →
  ∃ steps, session es pg w = Ok steps ∧ Forall (λ s, I s.1 s.2) steps.
Proof.
  intros Hstep. revert pg w. induction es as [|e es IH]; intros pg w HI; simpl.
  - by exists [].
  - destruct (handle_Ok e pg w) as (pg' & w' & He). rewrite He.
    pose proof (Hstep _ _ _ _ _ He HI) as HI'.
    destruct (IH pg' w' HI') as (steps & -> & Hall).
    eexists. split; [done|]. by constructor.
Qed.

Lemma startup_current pg0 w0 pg w :
  startup pg0 w0 = Ok (pg, w) → view_current pg w ∧ filter_current pg w.
Proof.
  unfold startup. unfold mbind at 1, M_bind at 1.
  destruct (BlogManager_new w0) as [[[] w1]|]; [|done].
  change (BlogUI_new pg0 w1) with ((updateTagFilter pg0 ≫= render) w1).
  destruct (refresh_spec pg0 w1) as (pg' & Hpg' & Hview & Hfilter & _).
  rewrite Hpg'. by intros [= <- <-].
Qed.

Lemma handle_current e pg w pg' w' :
  reset_within_form →
  handle e pg w = Ok (pg', w') →
  view_current pg w ∧ filter_current pg w →
  view_current pg' w' ∧ filter_current pg' w'.
Proof.
  intros Hreset He [Hview Hfilter].
  destruct e as [c v| | |v|i|i [|]]; cbn [handle] in He.
  - injection He as <- <-. by destruct c.
  - destruct (decide (JS.trim (titleInput pg) ≠ EmptyString ∧
                      JS.trim (contentInput pg) ≠ EmptyString)) as [[Ht Hc]|Hno].
    + destruct (handleSubmit_valid pg w Ht Hc) as (w1 & pg1 & _ & Hpg1 & Hrun).
      rewrite Hrun in He. injection He as <- <-.
      destruct (refresh_spec (resetForm pg) w1) as (pg2 & Hpg2 & ? & ? & _).
      rewrite Hpg1 in Hpg2. by injection Hpg2 as <-.
    + rewrite handleSubmit_invalid in He by done. by injection He as <- <-.
  - injection He as <- <-. destruct (Hreset pg) as (Ho & Hv & Hb).
    unfold view_current, filter_current in *.
    cbn [resetForm blogList filterOptions filterValue
         set_cancelHidden set_formTitle set_input].
    by rewrite Ho, Hv, Hb.
  - case_decide as Hv; [|by injection He as <- <-].
    rewrite render_spec in He. injection He as <- <-.
    destruct Hfilter as [Ho _]. split; [reflexivity|]. split; [exact Ho|exact Hv].
  - rewrite editBlog_spec in He. injection He as <- <-.
    by destruct (snd <$> findBlog i (blogs w)).
  - destruct (deleteBlog_page_spec i pg w) as (pg1 & w1 & Hrun & _ & Hpg1).
    rewrite Hrun in He. injection He as <- <-.
    destruct (refresh_spec pg w1) as (pg2 & Hpg2 & ? & ? & _).
    rewrite Hpg1 in Hpg2. by injection Hpg2 as <-.
  - by injection He as <- <-.
Qed.

(** X19.  The page follows the collection.  From the moment the script
    has started, and through anything the user does, the list on the
    page is the markup of the entries of the collection under the tag
    selected in the filter, the filter offers "all" and the tags in use,
    and what is selected is one of its options.  It holds on a page whose
    form does not contain the filter. *)
Theorem page_follows (es : list event) (pg0 pg : Page) (w0 w : World) :
  reset_within_form →
  startup pg0 w0 = Ok (pg, w) →
  view_current pg w ∧ filter_current pg w ∧
  ∃ steps, session es pg w = Ok steps ∧
           Forall (λ s, view_current s.1 s.2 ∧ filter_current s.1 s.2) steps.
Proof.
  intros Hreset Hstart.
  destruct (startup_current _ _ _ _ Hstart) as [Hview Hfilter].
  split_and!; [done..|].
  apply (session_invariant (λ pg w, view_current pg w ∧ filter_current pg w)); [|done].
  intros e pg1 w1 pg2 w2. by apply handle_current.
Qed.

Lemma perform_tidy k w w' :
  match k with
  | Add t c tg | Update _ t c tg =>
      t ≠ EmptyString ∧ JS.trim t = t ∧ c ≠ EmptyString ∧ JS.trim c = c ∧
      Forall clean_tag tg
  | Delete _ => True
  end →
  perform k w = Ok ((), w') → Forall tidy (blogs w) → Forall tidy (blogs w').
Proof.
  destruct k as [t c tg|i t c tg|i]; simpl; intros Hk.
  - erewrite bind_Ok by apply addBlog_spec. intros [= <-] Hw. cbn [blogs].
    rewrite Array_sort_perm. apply Forall_app. split; [done|].
    by apply Forall_singleton.
  - destruct (findBlog i (blogs w)) as [[slot b]|] eqn:Hf.
    + erewrite bind_Ok by (by apply updateBlog_found). intros [= <-] Hw. cbn [blogs].
      rewrite Array_sort_perm. apply Forall_insert; done.
    + erewrite bind_Ok by (by apply updateBlog_missing). by intros [= <-].
  - rewrite deleteBlog_spec. intros [= <-] Hw. cbn [blogs].
    apply Forall_forall. intros b [_ Hb]%list_elem_of_filter.
    by eapply Forall_forall in Hw.
Qed.

Lemma handle_tidy e pg w pg' w' :
  handle e pg w = Ok (pg', w') → Forall tidy (blogs w) → Forall tidy (blogs w').
Proof.
  intros He Hw. destruct e as [c v| | |v|i|i [|]]; cbn [handle] in He.
  - by injection He as <- <-.
  - destruct (decide (JS.trim (titleInput pg) ≠ EmptyString ∧
                      JS.trim (contentInput pg) ≠ EmptyString)) as [[Ht Hc]|Hno].
    + destruct (handleSubmit_valid pg w Ht Hc) as (w1 & pg1 & Hk & _ & Hrun).
      rewrite Hrun in He. injection He as <- <-.
      eapply perform_tidy; [|exact Hk|done].
      destruct (JS.parseInt (editIdInput pg)) as [i|]; [destruct (decide (i ≠ 0))|];
        (split_and!; [done|apply trim_idem|done|apply trim_idem|apply parseTags_all_clean]).
    + rewrite handleSubmit_invalid in He by done. by injection He as <- <-.
  - by injection He as <- <-.
  - case_decide; [rewrite render_spec in He|]; by injection He as <- <-.
  - rewrite editBlog_spec in He. by injection He as <- <-.
  - destruct (deleteBlog_page_spec i pg w) as (pg1 & w1 & Hrun & Hdel & _).
    rewrite Hrun in He. injection He as <- <-.
    eapply (perform_tidy (Delete i)); [done|exact Hdel|done].
  - by injection He as <- <-.
Qed.

(** X20.  The form makes only entries that are in good shape.  If every
    entry of the collection has a title and a content that are not empty
    and have no white space at either end, and tags that are not empty,
    have none either and hold no comma, then so it is after anything the
    user does on the page. *)
Theorem page_keeps_entries_tidy (es : list event) (pg : Page) (w : World) :
  Forall tidy (blogs w) →
  ∃ steps, session es pg w = Ok steps ∧
           Forall (λ s, Forall tidy (blogs s.2)) steps.
Proof.
  intros Hw. apply (session_invariant (λ _ w, Forall tidy (blogs w))); [|done].
  intros e pg1 w1 pg2 w2. apply handle_tidy.
Qed.

Lemma handle_mode e pg w pg' w' :
  handle e pg w = Ok (pg', w') →
  create_mode pg ∨ (∃ n, edit_mode n pg) →
  create_mode pg' ∨ (∃ n, edit_mode n pg').
Proof.
  intros He Hm. destruct e as [c v| | |v|i|i [|]]; cbn [handle] in He.
  - injection He as <- <-. by destruct c.
  - destruct (decide (JS.trim (titleInput pg) ≠ EmptyString ∧
                      JS.trim (contentInput pg) ≠ EmptyString)) as [[Ht Hc]|Hno].
    + destruct (handleSubmit_valid pg w Ht Hc) as (w1 & pg1 & _ & Hpg1 & Hrun).
      rewrite Hrun in He. injection He as <- <-.
      destruct (refresh_spec (resetForm pg) w1)
        as (pg2 & Hpg2 & _ & _ & _ & _ & _ & _ & He & Hf & Hh).
      rewrite Hpg1 in Hpg2. injection Hpg2 as <-.
      left. unfold create_mode. by rewrite He, Hf, Hh.
    + rewrite handleSubmit_invalid in He by done. by injection He as <- <-.
  - injection He as <- <-. by left.
  - case_decide; [rewrite render_spec in He|]; by injection He as <- <-.
  - rewrite editBlog_spec in He. injection He as <- <-.
    destruct (snd <$> findBlog i (blogs w)) as [b|]; [|done].
    right. by exists (id b).
  - destruct (deleteBlog_page_spec i pg w) as (pg1 & w1 & Hrun & _ & Hpg1).
    rewrite Hrun in He. injection He as <- <-.
    destruct (refresh_spec pg w1)
      as (pg2 & Hpg2 & _ & _ & _ & _ & _ & _ & He & Hf & Hh).
    rewrite Hpg1 in Hpg2. injection Hpg2 as <-.
    unfold create_mode, edit_mode in *. by rewrite He, Hf, Hh.
  - by injection He as <- <-.
Qed.

(** X21.  The form is always in one of its two states.  Once it is set
    for a new post (no id in the hidden field, the cancel button hidden,
    the heading of a new post) or for the edit of an entry (its id in the
    field, the button shown, the heading of an edit), it is in one of the
    two after anything the user does. *)
Theorem form_in_a_mode (es : list event) (pg : Page) (w : World) :
  create_mode pg ∨ (∃ n, edit_mode n pg) →
  ∃ steps, session es pg w = Ok steps ∧
           Forall (λ s, create_mode s.1 ∨ (∃ n, edit_mode n s.1)) steps.
Proof.
  intros Hm.
  apply (session_invariant (λ pg _, create_mode pg ∨ (∃ n, edit_mode n pg))); [|done].
  intros e pg1 w1 pg2 w2. apply handle_mode.
Qed.

End page_invariants.

(** ** The page and the manager *)

Section page_and_manager.
Context `{P : Platform} `{D : Document}.

(** What an event does to the manager is nothing, or one of its calls. *)
Lemma handle_calls e pg w pg' w' :
  handle e pg w = Ok (pg', w') → w' = w ∨ ∃ k, perform k w = Ok ((), w').
Proof.
  intros He. destruct e as [c v| | |v|i|i [|]]; cbn [handle] in He.
  - left. by injection He as <- <-.
  - destruct (decide (JS.trim (titleInput pg) ≠ EmptyString ∧
                      JS.trim (contentInput pg) ≠ EmptyString)) as [[Ht Hc]|Hno].
    + destruct (handleSubmit_valid pg w Ht Hc) as (w1 & pg1 & Hk & _ & Hrun).
      rewrite Hrun in He. injection He as <- <-. right. eexists. exact Hk.
    + rewrite handleSubmit_invalid in He by done. left. by injection He as <- <-.
  - left. by injection He as <- <-.
  - left. case_decide; [rewrite render_spec in He|]; by injection He as <- <-.
  - rewrite editBlog_spec in He. left. by injection He as <- <-.
  - destruct (deleteBlog_page_spec i pg w) as (pg1 & w1 & Hrun & Hdel & _).
    rewrite Hrun in He. injection He as <- <-. right. by exists (Delete i).
  - left. by injection He as <- <-.
Qed.

(** X22.  Looking changes nothing.  Typing into the form, cancelling,
    choosing a tag in the filter, opening an entry for edit, and a delete
    answered with "no" leave the collection, the store and the clock as
    they are: only a form sent and a delete answered with "yes" reach
    the manager. *)
Theorem looking_changes_nothing (e : event) (pg : Page) (w : World) :
  e ≠ Submit → (∀ i, e ≠ Remove i true) →
  ∃ pg', handle e pg w = Ok (pg', w).
Proof.
  intros Hs Hr. destruct e as [c v| | |v|i|i [|]]; cbn [handle].
  - by eexists.
  - done.
  - by eexists.
  - case_decide; [rewrite render_spec|]; by eexists.
  - rewrite editBlog_spec. by eexists.
  - by destruct (Hr i).
  - by eexists.
Qed.

(** X23.  The page reaches the collection only through the manager.
    Whatever the user does, the collection, the store and the clock after
    each event are those at the start or those after one of a sequence of
    calls of [addBlog], [updateBlog] and [deleteBlog] made from the
    start; so what holds after every such call holds on the page. *)
Theorem page_only_calls (es : list event) (pg : Page) (w : World) :
  ∃ steps ks ws, session es pg w = Ok steps ∧ trace ks w = Ok ws ∧
                 Forall (λ s, s.2 = w ∨ s.2 ∈ ws) steps.
Proof.
  revert pg w. induction es as [|e es IH]; intros pg w; simpl.
  - by exists [], [], [].
  - destruct (handle_Ok e pg w) as (pg' & w' & He). rewrite He.
    destruct (IH pg' w') as (steps & ks & ws & -> & Hks & Hall).
    destruct (handle_calls _ _ _ _ _ He) as [->|[k Hk]].
    + exists ((pg', w) :: steps), ks, ws. split_and!; [done..|].
      constructor; [by left|done].
    + exists ((pg', w') :: steps), (k :: ks), (w' :: ws). split_and!; [done| |].
      * simpl. by rewrite Hk, Hks.
      * constructor; [right; left|].
        eapply Forall_impl; [exact Hall|]. intros s [->|Hs]; right; [left|by right].
Qed.

End page_and_manager.

(** ** The page on sample data *)

Section page_samples.
Local Existing Instance Sample.ticking.
Local Existing Instance SamplePage.document.



Lemma sample_id_safe : safe_integer 1699999990000.
Proof. unfold safe_integer. simpl. lia. Defined.

Lemma parseInt_of_id_witness :
  safe_integer 1699999990000 ∧
  JS.parseInt (JS.Number_toString 1699999990000) = Some 1699999990000.
Proof.
  split; [exact sample_id_safe|].
  exact (parseInt_of_id 1699999990000 sample_id_safe).
Defined.

Lemma page_ids_not_now :
  Forall (λ b, id b ≠ clock (ticks Sample.page)) (blogs Sample.page).
Proof. repeat (apply Forall_cons; split; [discriminate|]). apply Forall_nil_2. Defined.

Lemma add_then_delete_witness :
  sorted_newest_first (blogs Sample.page) ∧
  Forall (λ b, id b ≠ clock (ticks Sample.page)) (blogs Sample.page) ∧
  ∃ b w1 w2, addBlog "C" "body3" ["z"%string] Sample.page = Ok (b, w1) ∧
             deleteBlog (id b) w1 = Ok ((), w2) ∧
             blogs w2 = blogs Sample.page.
Proof.
  split_and!; [exact page_sorted|exact page_ids_not_now|].
  exact (add_then_delete "C" "body3" ["z"%string] Sample.page page_sorted page_ids_not_now).
Defined.

Lemma page_older_than_new :
  Forall (λ b, updatedDate b < clock (S (S (ticks Sample.page)))) (blogs Sample.page).
Proof. repeat (apply Forall_cons; split; [reflexivity|]). apply Forall_nil_2. Defined.

Lemma added_post_first_witness :
  sorted_newest_first (blogs Sample.page) ∧
  Forall (λ b, updatedDate b < clock (S (S (ticks Sample.page)))) (blogs Sample.page) ∧
  ∃ b w', addBlog "C" "body3" ["z"%string] Sample.page = Ok (b, w') ∧
          blogs w' = b :: blogs Sample.page.
Proof.
  split_and!; [exact page_sorted|exact page_older_than_new|].
  exact (added_post_first "C" "body3" ["z"%string] Sample.page
           page_sorted page_older_than_new).
Defined.

Lemma page_older_than_now :
  Forall (λ x, updatedDate x < clock (ticks Sample.page)) (blogs Sample.page).
Proof. repeat (apply Forall_cons; split; [reflexivity|]). apply Forall_nil_2. Defined.

Lemma newer_in_front : Forall (λ x, id x ≠ 1699999990000) [Sample.newer].
Proof. apply Forall_cons. split; [discriminate|apply Forall_nil_2]. Defined.

Lemma edited_post_first_witness :
  sorted_newest_first (blogs Sample.page) ∧
  Forall (λ x, updatedDate x < clock (ticks Sample.page)) (blogs Sample.page) ∧
  blogs Sample.page = [Sample.newer] ++ Sample.older :: [] ∧
  id Sample.older = 1699999990000 ∧
  Forall (λ x, id x ≠ 1699999990000) [Sample.newer] ∧
  ∃ b' w', updateBlog 1699999990000 "A2" "body2" [] Sample.page = Ok (Some b', w') ∧
           b' = mkBlog 1699999990000 "A2" "body2" [] (createdDate Sample.older)
                       (clock (ticks Sample.page)) ∧
           blogs w' = b' :: [Sample.newer] ++ [].
Proof.
  split_and!; [exact page_sorted|exact page_older_than_now|reflexivity|reflexivity
              |exact newer_in_front|].
  exact (edited_post_first 1699999990000 "A2" "body2" [] Sample.page
           [Sample.newer] [] Sample.older
           page_sorted page_older_than_now eq_refl eq_refl newer_in_front).
Defined.

Lemma getBlog_added_witness :
  Forall (λ b, id b ≠ clock (ticks Sample.page)) (blogs Sample.page) ∧
  ∃ b w', addBlog "C" "body3" ["z"%string] Sample.page = Ok (b, w') ∧
          getBlog (id b) w' = Ok (Some b, w').
Proof.
  split; [exact page_ids_not_now|].
  exact (getBlog_added "C" "body3" ["z"%string] Sample.page page_ids_not_now).
Defined.

Lemma y_not_empty : "y"%string ≠ EmptyString.
Proof. discriminate. Defined.

Lemma tag_listed_iff_shown_witness :
  "y"%string ≠ EmptyString ∧
  ∃ ts l, getAllTags Sample.page = Ok (ts, Sample.page) ∧
          filterByTag (Some "y"%string) Sample.page = Ok (l, Sample.page) ∧
          ("y"%string ∈ ts ↔ l ≠ []).
Proof.
  split; [exact y_not_empty|].
  exact (tag_listed_iff_shown "y" Sample.page y_not_empty).
Defined.

Lemma fresh_up_to_date : up_to_date Sample.fresh.
Proof. right. split; reflexivity. Defined.

Lemma store_keeps_up_witness :
  up_to_date Sample.fresh ∧
  ∃ ws, trace Sample.calls Sample.fresh = Ok ws ∧
        Forall (λ w', up_to_date w' ∧
                  (JSON_parse (JSON_stringify (JArr (Blog_toJSON <$> blogs w')))
                     = Some (JArr (Blog_toJSON <$> blogs w')) →
                   JSON_stringify (JArr (Blog_toJSON <$> blogs w')) ≠ EmptyString →
                   Forall (λ b, date_round_trips (createdDate b) ∧
                                date_round_trips (updatedDate b)) (blogs w') →
                   ∀ page, localStorage page = localStorage w' →
                           ∃ page', BlogManager_new page = Ok ((), page') ∧
                                    blogs page' = blogs w')) ws.
Proof.
  split; [exact fresh_up_to_date|].
  exact (store_keeps_up Sample.calls Sample.fresh fresh_up_to_date).
Defined.

(** A title of a space, a no-break space and an ideographic space. *)
Lemma blank_title :
  JS.blank (titleInput (set_input TitleInput "  　" SamplePage.filled)) ∨
  JS.blank (contentInput (set_input TitleInput "  　" SamplePage.filled)).
Proof. left. apply (bool_decide_unpack _). by vm_compute. Defined.

Lemma handleSubmit_blank_witness :
  (JS.blank (titleInput (set_input TitleInput "  　" SamplePage.filled)) ∨
   JS.blank (contentInput (set_input TitleInput "  　" SamplePage.filled))) ∧
  handleSubmit (set_input TitleInput "  　" SamplePage.filled) Sample.page
    = Ok (set_input TitleInput "  　" SamplePage.filled, Sample.page).
Proof.
  split; [exact blank_title|].
  exact (handleSubmit_blank (set_input TitleInput "  　" SamplePage.filled) Sample.page
           blank_title).
Defined.

Lemma filled_has_title :
  ¬ JS.blank (titleInput SamplePage.filled).
Proof. apply (bool_decide_unpack _). by vm_compute. Defined.

Lemma filled_has_content :
  ¬ JS.blank (contentInput SamplePage.filled).
Proof. apply (bool_decide_unpack _). by vm_compute. Defined.

Lemma filled_has_no_id :
  JS.parseInt (editIdInput SamplePage.filled) = None ∨
  JS.parseInt (editIdInput SamplePage.filled) = Some 0.
Proof. left. reflexivity. Defined.

Lemma handleSubmit_adds_witness :
  ¬ JS.blank (titleInput SamplePage.filled) ∧
  ¬ JS.blank (contentInput SamplePage.filled) ∧
  (JS.parseInt (editIdInput SamplePage.filled) = None ∨
   JS.parseInt (editIdInput SamplePage.filled) = Some 0) ∧
  ∃ b w' pg',
    addBlog (JS.trim (titleInput SamplePage.filled))
            (JS.trim (contentInput SamplePage.filled))
            (parseTags (tagsInput SamplePage.filled)) Sample.page = Ok (b, w') ∧
    handleSubmit SamplePage.filled Sample.page = Ok (pg', w') ∧
    tidy b ∧ create_mode pg' ∧ filter_current pg' w' ∧ view_current pg' w'.
Proof.
  split_and!; [exact filled_has_title|exact filled_has_content|exact filled_has_no_id|].
  exact (handleSubmit_adds SamplePage.filled Sample.page
           filled_has_title filled_has_content filled_has_no_id).
Defined.

Lemma stale_has_title :
  ¬ JS.blank (titleInput (set_input EditIdInput "42" SamplePage.filled)).
Proof. apply (bool_decide_unpack _). by vm_compute. Defined.

Lemma stale_has_content :
  ¬ JS.blank (contentInput (set_input EditIdInput "42" SamplePage.filled)).
Proof. apply (bool_decide_unpack _). by vm_compute. Defined.

Lemma forty_two_not_zero : (42 : Z) ≠ 0.
Proof. discriminate. Defined.

Lemma handleSubmit_vanished_witness :
  ¬ JS.blank (titleInput (set_input EditIdInput "42" SamplePage.filled)) ∧
  ¬ JS.blank (contentInput (set_input EditIdInput "42" SamplePage.filled)) ∧
  JS.parseInt (editIdInput (set_input EditIdInput "42" SamplePage.filled)) = Some 42 ∧
  (42 : Z) ≠ 0 ∧
  Forall (λ b, id b ≠ 42) (blogs Sample.page) ∧
  ∃ pg', handleSubmit (set_input EditIdInput "42" SamplePage.filled) Sample.page
           = Ok (pg', Sample.page) ∧
         create_mode pg' ∧
         titleInput pg' = titleInput (form_reset (set_input EditIdInput "42" SamplePage.filled)) ∧
         contentInput pg' = contentInput (form_reset (set_input EditIdInput "42" SamplePage.filled)) ∧
         tagsInput pg' = tagsInput (form_reset (set_input EditIdInput "42" SamplePage.filled)).
Proof.
  split_and!; [exact stale_has_title|exact stale_has_content|reflexivity
              |exact forty_two_not_zero|exact page_has_no_42|].
  exact (handleSubmit_vanished (set_input EditIdInput "42" SamplePage.filled) Sample.page 42
           stale_has_title stale_has_content eq_refl forty_two_not_zero page_has_no_42).
Defined.

Lemma older_id_not_zero : id Sample.older ≠ 0.
Proof. discriminate. Defined.

Lemma older_tidy : tidy Sample.older.
Proof. unfold tidy, clean_tag. apply (bool_decide_unpack _). by vm_compute. Defined.

Lemma newer_tidy : tidy Sample.newer.
Proof. unfold tidy, clean_tag. apply (bool_decide_unpack _). by vm_compute. Defined.

Lemma older_held_as_written : held_as_written Sample.older.
Proof. repeat split. Defined.

Lemma edit_then_submit_witness :
  blogs Sample.page = [Sample.newer] ++ Sample.older :: [] ∧
  Forall (λ x, id x ≠ id Sample.older) [Sample.newer] ∧
  id Sample.older ≠ 0 ∧ safe_integer (id Sample.older) ∧
  tidy Sample.older ∧ held_as_written Sample.older ∧
  ∃ pg1 pg2 b' w',
    BlogUI_editBlog (id Sample.older) SamplePage.blank Sample.page = Ok (pg1, Sample.page) ∧
    edit_mode (id Sample.older) pg1 ∧
    handleSubmit pg1 Sample.page = Ok (pg2, w') ∧ create_mode pg2 ∧
    updateBlog (id Sample.older) (title Sample.older) (content Sample.older)
               (tags Sample.older) Sample.page = Ok (Some b', w') ∧
    b' = mkBlog (id Sample.older) (title Sample.older) (content Sample.older)
                (tags Sample.older) (createdDate Sample.older)
                (clock (ticks Sample.page)) ∧
    blogs w' ≡ₚ [Sample.newer] ++ b' :: [].
Proof.
  split_and!; [reflexivity|exact newer_in_front|exact older_id_not_zero
              |exact sample_id_safe|exact older_tidy|exact older_held_as_written|].
  exact (edit_then_submit SamplePage.blank Sample.page [Sample.newer] [] Sample.older
           eq_refl newer_in_front older_id_not_zero sample_id_safe older_tidy
           older_held_as_written).
Defined.

Lemma sample_reset_within_form : reset_within_form.
Proof. intros pg. by repeat split. Defined.

Lemma sample_startup :
  startup SamplePage.blank Sample.fresh
    = Ok (set_filter [(EmptyString, Text.all_posts)] EmptyString SamplePage.blank,
          Sample.fresh).
Proof. by vm_compute. Defined.

Lemma page_follows_witness :
  reset_within_form ∧
  startup SamplePage.blank Sample.fresh
    = Ok (set_filter [(EmptyString, Text.all_posts)] EmptyString SamplePage.blank,
          Sample.fresh) ∧
  view_current (set_filter [(EmptyString, Text.all_posts)] EmptyString SamplePage.blank)
               Sample.fresh ∧
  filter_current (set_filter [(EmptyString, Text.all_posts)] EmptyString SamplePage.blank)
                 Sample.fresh ∧
  ∃ steps, session SamplePage.visit
             (set_filter [(EmptyString, Text.all_posts)] EmptyString SamplePage.blank)
             Sample.fresh = Ok steps ∧
           Forall (λ s, view_current s.1 s.2 ∧ filter_current s.1 s.2) steps.
Proof.
  split_and!; [exact sample_reset_within_form|exact sample_startup|..];
    apply (page_follows SamplePage.visit SamplePage.blank _ Sample.fresh _
             sample_reset_within_form sample_startup).
Defined.

Lemma page_tidy : Forall tidy (blogs Sample.page).
Proof.
  apply Forall_cons. split; [exact newer_tidy|].
  apply Forall_cons. split; [exact older_tidy|apply Forall_nil_2].
Defined.

Lemma page_keeps_entries_tidy_witness :
  Forall tidy (blogs Sample.page) ∧
  ∃ steps, session SamplePage.visit SamplePage.blank Sample.page = Ok steps ∧
           Forall (λ s, Forall tidy (blogs s.2)) steps.
Proof.
  split; [exact page_tidy|].
  exact (page_keeps_entries_tidy SamplePage.visit SamplePage.blank Sample.page page_tidy).
Defined.

Lemma blank_in_a_mode :
  create_mode SamplePage.blank ∨ (∃ n, edit_mode n SamplePage.blank).
Proof. left. by repeat split. Defined.

Lemma form_in_a_mode_witness :
  (create_mode SamplePage.blank ∨ (∃ n, edit_mode n SamplePage.blank)) ∧
  ∃ steps, session SamplePage.visit SamplePage.blank Sample.page = Ok steps ∧
           Forall (λ s, create_mode s.1 ∨ (∃ n, edit_mode n s.1)) steps.
Proof.
  split; [exact blank_in_a_mode|].
  exact (form_in_a_mode SamplePage.visit SamplePage.blank Sample.page blank_in_a_mode).
Defined.

Lemma choose_is_no_submit : Choose "y" ≠ Submit.
Proof. discriminate. Defined.

Lemma choose_is_no_remove : ∀ i, Choose "y" ≠ Remove i true.
Proof. intros i. discriminate. Defined.

Lemma looking_changes_nothing_witness :
  Choose "y" ≠ Submit ∧ (∀ i, Choose "y" ≠ Remove i true) ∧
  ∃ pg', handle (Choose "y") SamplePage.blank Sample.page = Ok (pg', Sample.page).
Proof.
  split_and!; [exact choose_is_no_submit|exact choose_is_no_remove|].
  exact (looking_changes_nothing (Choose "y") SamplePage.blank Sample.page
           choose_is_no_submit choose_is_no_remove).
Defined.

(** Texts beyond ASCII.  The last byte of the Thai letter is [0xA0], and
    it stays; the no-break space and the ideographic space go. *)
Example trim_of_texts :
  JS.trim "  ภ " = "ภ"%string ∧
  JS.trim "voilà" = "voilà"%string ∧
  JS.trim " x　" = "x"%string ∧
  parseTags "ลาภ , ,　x, " = ["ลาภ"; "x"]%string ∧
  parseTags " , 　" = [].
Proof. split_and!. all: [> vm_compute; reflexivity ..]. Qed.

(** [sort()] compares code units: a character outside the basic plane is
    held as two surrogates, and comes before the characters at the end
    of the plane. *)
Example tags_by_code_units :
  ∃ b w, addBlog "T" "body" ["Ａ"; "😀"; "é"; "z"; "ลาภ"; "😀"]%string Sample.fresh
           = Ok (b, w) ∧
         getAllTags w = Ok (["z"; "é"; "ลาภ"; "😀"; "Ａ"]%string, w).
Proof. eexists _, _. split_and!. all: [> vm_compute; reflexivity ..]. Qed.

(** A form with a Thai title and tags, white space of several kinds
    around them. *)
Example thai_post :
  ∃ pg w,
    handleSubmit (set_input TitleInput " ลาภ "
                    (set_input ContentInput "　ภ"
                       (set_input TagsInput "ภ, ลาภ" SamplePage.blank)))
                 Sample.fresh = Ok (pg, w) ∧
    (λ b, (title b, content b, tags b)) <$> blogs w
      = [("ลาภ", "ภ", ["ภ"; "ลาภ"])]%string ∧
    filterOptions pg = [(EmptyString, Text.all_posts); ("ภ", "ภ"); ("ลาภ", "ลาภ")]%string.
Proof. eexists _, _. split_and!. all: [> vm_compute; reflexivity ..]. Qed.

End page_samples.
